(** * portal-tunnel: relay directory, connection proxy, tunnel session and
      supervisor

    A shallow embedding of [cmd/config.go] and [cmd/main.go].

    - Go strings are byte strings: [string] (a list of 8-bit [ascii]).
    - Go maps are finite maps ([gmap]); a [map[string]struct{}] used as a set
      is a [gset string].
    - A Go [error] value is [option error]; [None] is [nil].
    - The goroutines of [proxyConnection], [runServiceTunnel] and
      [runExposeWithConfig] are modelled as labelled transition systems: an
      event names the goroutine that moves (or what the environment does) and
      [step] is a partial function, so that every schedule is a list of
      events that can be executed. *)

From Stdlib Require Import ZArith Ascii String List Bool Lia DecimalString.
From stdpp Require Import base gmap sets list strings.

Local Open Scope string_scope.
Local Open Scope list_scope.

(** ** The Go library functions the program calls *)

(** [unicode/utf8]: decoding of the first and of the last rune of a byte
    sequence.  Runes are [Z] (Go's [int32]). *)
Module utf8.

Definition RuneError : Z := 0xFFFD.
Definition RuneSelf : Z := 0x80.
Definition UTFMax : nat := 4.

Definition byteZ (c : ascii) : Z := Z.of_N (N_of_ascii c).

(** The [first] table: [None] for an invalid leading byte ([xx]),
    otherwise the size of the encoding and the range accepted for the
    second byte.  ASCII bytes are handled before the table is used. *)
Definition first (b : Z) : option (nat * (Z * Z)) :=
  if (b <? 0xC2)%Z then None
  else if (b <=? 0xDF)%Z then Some (2, (0x80, 0xBF)%Z)
  else if (b =? 0xE0)%Z then Some (3, (0xA0, 0xBF)%Z)
  else if (b <=? 0xEC)%Z then Some (3, (0x80, 0xBF)%Z)
  else if (b =? 0xED)%Z then Some (3, (0x80, 0x9F)%Z)
  else if (b <=? 0xEF)%Z then Some (3, (0x80, 0xBF)%Z)
  else if (b =? 0xF0)%Z then Some (4, (0x90, 0xBF)%Z)
  else if (b <=? 0xF3)%Z then Some (4, (0x80, 0xBF)%Z)
  else if (b =? 0xF4)%Z then Some (4, (0x80, 0x8F)%Z)
  else None.

Definition inRange (lo hi b : Z) : bool := ((lo <=? b) && (b <=? hi))%Z.
Definition cont (b : Z) : bool := inRange 0x80 0xBF b.

(** [utf8.DecodeRuneInString]: the rune and its width in bytes; an invalid
    or short encoding is [(RuneError, 1)], the empty string
    [(RuneError, 0)]. *)
Definition DecodeRune (s : list ascii) : Z * nat :=
  match s with
  | [] => (RuneError, 0)
  | c0 :: s1 =>
    let s0 := byteZ c0 in
    if (s0 <? RuneSelf)%Z then (s0, 1)
    else match first s0 with
    | None => (RuneError, 1)
    | Some (sz, (lo, hi)) =>
      if (length s <? sz)%nat then (RuneError, 1)
      else match map byteZ s1 with
      | b1 :: t1 =>
        if negb (inRange lo hi b1) then (RuneError, 1)
        else if (sz <=? 2)%nat
        then (Z.lor (Z.shiftl (Z.land s0 0x1F) 6) (Z.land b1 0x3F), 2)
        else match t1 with
        | b2 :: t2 =>
          if negb (cont b2) then (RuneError, 1)
          else if (sz <=? 3)%nat
          then (Z.lor (Z.lor (Z.shiftl (Z.land s0 0x0F) 12)
                             (Z.shiftl (Z.land b1 0x3F) 6))
                      (Z.land b2 0x3F), 3)
          else match t2 with
          | b3 :: _ =>
            if negb (cont b3) then (RuneError, 1)
            else (Z.lor (Z.lor (Z.lor (Z.shiftl (Z.land s0 0x07) 18)
                                      (Z.shiftl (Z.land b1 0x3F) 12))
                               (Z.shiftl (Z.land b2 0x3F) 6))
                        (Z.land b3 0x3F), 4)
          | [] => (RuneError, 1)
          end
        | [] => (RuneError, 1)
        end
      | [] => (RuneError, 1)
      end
    end
  end.

(** [utf8.RuneStart]: the byte is not a continuation byte. *)
Definition RuneStart (b : Z) : bool := negb (Z.land b 0xC0 =? 0x80)%Z.

(** The backwards scan of [DecodeLastRuneInString]: from [start], go down
    to [lim] and stop at the first byte that can start a rune.  The result
    is the final value of [start] ([-1] when the scan leaves the string). *)
Fixpoint scanStart (s : list ascii) (lim : Z) (n : nat) (start : Z) : Z :=
  match n with
  | O => start
  | S n' =>
    if (start <? lim)%Z then start
    else match s !! Z.to_nat start with
    | Some c => if RuneStart (byteZ c) then start
                else scanStart s lim n' (start - 1)%Z
    | None => start
    end
  end.

(** [utf8.DecodeLastRuneInString]. *)
Definition DecodeLastRune (s : list ascii) : Z * nat :=
  let endp := Z.of_nat (length s) in
  match last s with
  | None => (RuneError, 0)
  | Some c =>
    let r := byteZ c in
    if (r <? RuneSelf)%Z then (r, 1)
    else
      let lim := Z.max 0 (endp - Z.of_nat UTFMax) in
      let start := scanStart s lim UTFMax (endp - 2)%Z in
      let start := Z.max 0 start in
      let '(r, size) := DecodeRune (drop (Z.to_nat start) s) in
      if (start + Z.of_nat size =? endp)%Z then (r, size)
      else (RuneError, 1)
  end.

End utf8.

(** [unicode.IsSpace]: the Latin-1 spaces and the [White_Space] table. *)
Module unicode.

Definition IsSpace (r : Z) : bool :=
  if (Z.land r 0xFFFFFFFF <=? 0xFF)%Z then
    (r =? 0x09)%Z || (r =? 0x0A)%Z || (r =? 0x0B)%Z || (r =? 0x0C)%Z
    || (r =? 0x0D)%Z || (r =? 0x20)%Z || (r =? 0x85)%Z || (r =? 0xA0)%Z
  else
    (r =? 0x1680)%Z || utf8.inRange 0x2000 0x200A r
    || (r =? 0x2028)%Z || (r =? 0x2029)%Z || (r =? 0x202F)%Z
    || (r =? 0x205F)%Z || (r =? 0x3000)%Z.

End unicode.

(** Package [strings]: [TrimSpace] and [Join]. *)
Module strings.

(** The [asciiSpace] table. *)
Definition asciiSpace (b : Z) : bool :=
  (b =? 0x09)%Z || (b =? 0x0A)%Z || (b =? 0x0B)%Z || (b =? 0x0C)%Z
  || (b =? 0x0D)%Z || (b =? 0x20)%Z.

(** [strings.TrimLeftFunc s f]: drop leading runes while [f] holds.
    [n] bounds the number of runes ([length s] is enough, every rune of a
    non-empty string has width at least 1). *)
Fixpoint trimLeftLoop (f : Z → bool) (n : nat) (s : list ascii) : list ascii :=
  match n with
  | O => s
  | S n' =>
    match s with
    | [] => []
    | _ => let '(r, size) := utf8.DecodeRune s in
           if f r then trimLeftLoop f n' (drop size s) else s
    end
  end.

Definition TrimLeftFunc (s : list ascii) (f : Z → bool) : list ascii :=
  trimLeftLoop f (length s) s.

(** [lastIndexFunc s f false]: the index of the last rune on which [f]
    fails, [-1] when there is none; [i] is the length of the prefix still
    to be looked at. *)
Fixpoint lastIndexLoop (f : Z → bool) (s : list ascii) (n : nat) (i : nat) : Z :=
  match n with
  | O => (-1)%Z
  | S n' =>
    if (0 <? i)%nat then
      let '(r, size) := utf8.DecodeLastRune (take i s) in
      let i := (i - size)%nat in
      if f r then lastIndexLoop f s n' i else Z.of_nat i
    else (-1)%Z
  end.

Definition TrimRightFunc (s : list ascii) (f : Z → bool) : list ascii :=
  let i := lastIndexLoop f s (S (length s)) (length s) in
  let i :=
    if (0 <=? i)%Z
       && (utf8.RuneSelf <=? from_option utf8.byteZ 0%Z (s !! Z.to_nat i))%Z
    then (i + Z.of_nat (snd (utf8.DecodeRune (drop (Z.to_nat i) s))))%Z
    else (i + 1)%Z in
  take (Z.to_nat i) s.

Definition TrimFunc (s : list ascii) (f : Z → bool) : list ascii :=
  TrimRightFunc (TrimLeftFunc s f) f.

(** The two loops of [TrimSpace]: the ASCII fast path from the left, then
    from the right; the first byte [>= RuneSelf] met hands over to the
    rune-wise functions. *)
Fixpoint trimSpaceLeft (s : list ascii) : list ascii + list ascii :=
  match s with
  | [] => inl []
  | c :: s' =>
    if (utf8.RuneSelf <=? utf8.byteZ c)%Z then inr s
    else if asciiSpace (utf8.byteZ c) then trimSpaceLeft s'
    else inl s
  end.

(** [r] is [s[start:stop]] reversed. *)
Fixpoint trimSpaceRight (r : list ascii) : list ascii :=
  match r with
  | [] => []
  | c :: r' =>
    if (utf8.RuneSelf <=? utf8.byteZ c)%Z
    then TrimRightFunc (rev r) unicode.IsSpace
    else if asciiSpace (utf8.byteZ c) then trimSpaceRight r'
    else rev r
  end.

Definition TrimSpace (s : string) : string :=
  string_of_list_ascii
    match trimSpaceLeft (list_ascii_of_string s) with
    | inr rest => TrimFunc rest unicode.IsSpace
    | inl rest => trimSpaceRight (rev rest)
    end.

(** [strings.Join]. *)
Fixpoint Join (elems : list string) (sep : string) : string :=
  match elems with
  | [] => ""
  | [e] => e
  | e :: rest => e +:+ sep +:+ Join rest sep
  end.

End strings.





(** ** Errors

    [fmt.Errorf] without [%w] returns an [errorString]; with [%w] it returns
    a [wrapError] that keeps the formatted message and the wrapped error. *)
Inductive error : Type :=
| errorString (s : string)
| wrapError (msg : string) (err : error).

Definition Error (e : error) : string :=
  match e with
  | errorString s => s
  | wrapError msg _ => msg
  end.

Definition Unwrap (e : error) : option error :=
  match e with
  | errorString _ => None
  | wrapError _ err => Some err
  end.

(** [%v] of a [[]string]: the elements between brackets, separated by one
    space. *)
Definition fmt_v (l : list string) : string :=
  "[" +:+ strings.Join l " " +:+ "]".

(** ** cmd/config.go *)

Module RelayConfig.
Record t : Type := mk { Name : string; URLs : list string }.
End RelayConfig.

Module ServiceConfig.
Record t : Type := mk {
  Name : string;
  RelayPreference : list string;
  Target : string;
  Protocols : list string
}.
End ServiceConfig.

Definition defaultProtocols : list string := ["http/1.1"; "h2"].

Record RelayDirectory : Type := { entries : gmap string RelayConfig.t }.

Definition NewRelayDirectory (relays : list RelayConfig.t) : RelayDirectory :=
  {| entries := foldl (λ idx relay, <[RelayConfig.Name relay := relay]> idx) ∅ relays |}.

Definition applyServiceDefaults (svc : ServiceConfig.t) : ServiceConfig.t :=
  if decide (length (ServiceConfig.Protocols svc) = 0)
  then ServiceConfig.mk (ServiceConfig.Name svc) (ServiceConfig.RelayPreference svc)
                        (ServiceConfig.Target svc) defaultProtocols
  else svc.

(** The two errors of [BootstrapServers]. *)
Definition errEmptyPreference : error :=
  errorString "relayPreference must contain at least one relay name".

Definition errNoBootstrapServers (preferences : list string) : error :=
  errorString ("no bootstrap servers resolved for relayPreference " +:+ fmt_v preferences).

(** The state of the two loops: the [seen] set and the [servers] slice. *)
Definition resolveState : Type := gset string * list string.

(** Body of the inner loop, [for _, url := range relay.URLs]. *)
Definition visitURL (st : resolveState) (url : string) : resolveState :=
  let url := strings.TrimSpace url in
  if decide (url = "") then st
  else if decide (url ∈ st.1) then st
  else ({[url]} ∪ st.1, st.2 ++ [url]).

(** Body of the outer loop, [for _, relayName := range preferences]. *)
Definition visitRelay (rd : RelayDirectory) (st : resolveState) (relayName : string)
  : resolveState :=
  let relayName := strings.TrimSpace relayName in
  if decide (relayName = "") then st
  else match entries rd !! relayName with
       | None => st
       | Some relay => foldl visitURL st (RelayConfig.URLs relay)
       end.

Definition BootstrapServers (rd : RelayDirectory) (preferences : list string)
  : list string * option error :=
  if decide (length preferences = 0) then ([], Some errEmptyPreference)
  else
    let servers := (foldl (visitRelay rd) (∅, []) preferences).2 in
    if decide (length servers = 0)
    then ([], Some (errNoBootstrapServers preferences))
    else (servers, None).

(** *** What the directory is meant to compute

    The URLs met while walking the preference list, in the order they are
    met: for each preference whose trimmed name is in the directory, the
    trimmed, non-empty URLs of that relay. *)
Definition relayCandidates (relay : RelayConfig.t) : list string :=
  filter (λ u, u ≠ "") (strings.TrimSpace <$> RelayConfig.URLs relay).

Definition prefCandidates (rd : RelayDirectory) (relayName : string) : list string :=
  let relayName := strings.TrimSpace relayName in
  if decide (relayName = "") then []
  else from_option relayCandidates [] (entries rd !! relayName).

Definition candidates (rd : RelayDirectory) (preferences : list string) : list string :=
  preferences ≫= prefCandidates rd.

(** Stable deduplication: every element is kept at its first occurrence. *)
Fixpoint first_seen (l : list string) : list string :=
  match l with
  | [] => []
  | x :: l' => x :: filter (λ y, y ≠ x) (first_seen l')
  end.

(** The directory of the scenario. *)
Definition dirAB : RelayDirectory :=
  NewRelayDirectory [RelayConfig.mk "relayA" ["u1"; "u2"];
                     RelayConfig.mk "relayB" ["u2"; "u3"]].



(** ** cmd/main.go *)

(** Something that can be closed: a [net.Conn], the relay listener, the SDK
    client.  [closed] is its state, [closeCalls] counts the calls of
    [Close]; a call on a closed value changes nothing else. *)
Module Closer.
Record t : Type := mk { closed : bool; closeCalls : nat }.
Definition fresh : t := mk false 0.
Definition Close (c : t) : t := mk true (S (closeCalls c)).
End Closer.

(** *** proxyConnection

    Four goroutines: the caller ([main]), the one that watches [ctx.Done()]
    and [stopCh] ([watcher]), and the two [io.Copy] tasks.  The environment
    decides whether the dial succeeds, when the context is cancelled and
    when, and with which result, each [io.Copy] returns. *)
Module Proxy.

(** Where the calling goroutine is.  The states that follow the first
    receive carry the value assigned to [err]. *)
Inductive mainPC : Type :=
| MDial                                (* line 168: net.Dial *)
| MRecvFirst                           (* line 195: err = <-errCh *)
| MCloseStop (err : option error)      (* line 196: close(stopCh) *)
| MCloseRelay (err : option error)     (* line 197: relayConn.Close() *)
| MRecvSecond (err : option error)     (* line 198: <-errCh *)
| MDeferLocal (err : option error)     (* deferred localConn.Close() *)
| MDeferRelay (err : option error)     (* deferred relayConn.Close() *)
| MReturned (err : option error).

Inductive watcherPC : Type :=
| WNotStarted
| WSelect                              (* lines 177-182: select *)
| WCloseLocal                          (* relayConn closed, line 180 next *)
| WDoneCtx
| WDoneStop.

Inductive taskPC : Type := TNotStarted | TRunning | TFinished.

Record state : Type := mkState {
  ctxDone : bool;
  relayConn : Closer.t;
  localConn : option Closer.t;         (* [None]: not dialled *)
  stopCh : bool;                       (* closed? *)
  errCh : list (option error);         (* buffered, capacity 2 *)
  sent : list (option error);          (* every value sent on [errCh] so far *)
  toLocal : taskPC;                    (* io.Copy(localConn, relayConn) *)
  toRelay : taskPC;                    (* io.Copy(relayConn, localConn) *)
  watcher : watcherPC;
  main : mainPC
}.

Definition init : state :=
  mkState false Closer.fresh None false [] [] TNotStarted TNotStarted WNotStarted MDial.

Definition setCtxDone (s : state) : state :=
  mkState true (relayConn s) (localConn s) (stopCh s) (errCh s) (sent s)
          (toLocal s) (toRelay s) (watcher s) (main s).
Definition closeRelay (s : state) : state :=
  mkState (ctxDone s) (Closer.Close (relayConn s)) (localConn s) (stopCh s)
          (errCh s) (sent s) (toLocal s) (toRelay s) (watcher s) (main s).
Definition closeLocal (s : state) : state :=
  mkState (ctxDone s) (relayConn s) (Closer.Close <$> localConn s) (stopCh s)
          (errCh s) (sent s) (toLocal s) (toRelay s) (watcher s) (main s).
Definition closeStop (s : state) : state :=
  mkState (ctxDone s) (relayConn s) (localConn s) true (errCh s) (sent s)
          (toLocal s) (toRelay s) (watcher s) (main s).
Definition send (r : option error) (s : state) : state :=
  mkState (ctxDone s) (relayConn s) (localConn s) (stopCh s) (errCh s ++ [r])
          (sent s ++ [r]) (toLocal s) (toRelay s) (watcher s) (main s).
Definition setErrCh (ch : list (option error)) (s : state) : state :=
  mkState (ctxDone s) (relayConn s) (localConn s) (stopCh s) ch (sent s)
          (toLocal s) (toRelay s) (watcher s) (main s).
Definition setToLocal (t : taskPC) (s : state) : state :=
  mkState (ctxDone s) (relayConn s) (localConn s) (stopCh s) (errCh s) (sent s)
          t (toRelay s) (watcher s) (main s).
Definition setToRelay (t : taskPC) (s : state) : state :=
  mkState (ctxDone s) (relayConn s) (localConn s) (stopCh s) (errCh s) (sent s)
          (toLocal s) t (watcher s) (main s).
Definition setWatcher (w : watcherPC) (s : state) : state :=
  mkState (ctxDone s) (relayConn s) (localConn s) (stopCh s) (errCh s) (sent s)
          (toLocal s) (toRelay s) w (main s).
Definition setMain (m : mainPC) (s : state) : state :=
  mkState (ctxDone s) (relayConn s) (localConn s) (stopCh s) (errCh s) (sent s)
          (toLocal s) (toRelay s) (watcher s) m.

(** After a successful dial: [localConn] is open and the three goroutines
    of lines 176-193 are started. *)
Definition dialled (s : state) : state :=
  mkState (ctxDone s) (relayConn s) (Some Closer.fresh) false [] []
          TRunning TRunning WSelect MRecvFirst.

Definition errDial (localAddr : string) (err : error) : error :=
  wrapError ("failed to connect to local service " +:+ localAddr +:+ ": " +:+ Error err) err.

Inductive event : Type :=
| EvCancel                             (* the context is cancelled *)
| EvDialFail (err : error)             (* net.Dial returns err *)
| EvDialOk                             (* net.Dial returns a connection *)
| EvWatchCtx                           (* watcher: case <-ctx.Done(), relayConn.Close() *)
| EvWatchCloseLocal                    (* watcher: localConn.Close() *)
| EvWatchStop                          (* watcher: case <-stopCh *)
| EvCopyToLocal (r : option error)     (* io.Copy(localConn, relayConn) returns r; errCh <- r *)
| EvCopyToRelay (r : option error)     (* io.Copy(relayConn, localConn) returns r; errCh <- r *)
| EvRecvFirst
| EvCloseStop
| EvCloseRelay
| EvRecvSecond
| EvDeferLocal
| EvDeferRelay.

(** One move of one goroutine (or of the environment); [None] when the
    move is not possible in [s] (the goroutine is elsewhere, or blocked). *)
Definition step (localAddr : string) (ev : event) (s : state) : option state :=
  match ev with
  | EvCancel => Some (setCtxDone s)
  | EvDialFail err =>
    match main s with
    | MDial => Some (setMain (MDeferRelay (Some (errDial localAddr err))) s)
    | _ => None
    end
  | EvDialOk =>
    match main s with
    | MDial => Some (dialled s)
    | _ => None
    end
  | EvWatchCtx =>
    match watcher s with
    | WSelect => if ctxDone s then Some (setWatcher WCloseLocal (closeRelay s)) else None
    | _ => None
    end
  | EvWatchCloseLocal =>
    match watcher s with
    | WCloseLocal => Some (setWatcher WDoneCtx (closeLocal s))
    | _ => None
    end
  | EvWatchStop =>
    match watcher s with
    | WSelect => if stopCh s then Some (setWatcher WDoneStop s) else None
    | _ => None
    end
  | EvCopyToLocal r =>
    match toLocal s with
    | TRunning => Some (setToLocal TFinished (send r s))
    | _ => None
    end
  | EvCopyToRelay r =>
    match toRelay s with
    | TRunning => Some (setToRelay TFinished (send r s))
    | _ => None
    end
  | EvRecvFirst =>
    match main s, errCh s with
    | MRecvFirst, r :: ch => Some (setMain (MCloseStop r) (setErrCh ch s))
    | _, _ => None
    end
  | EvCloseStop =>
    match main s with
    | MCloseStop r => Some (setMain (MCloseRelay r) (closeStop s))
    | _ => None
    end
  | EvCloseRelay =>
    match main s with
    | MCloseRelay r => Some (setMain (MRecvSecond r) (closeRelay s))
    | _ => None
    end
  | EvRecvSecond =>
    match main s, errCh s with
    | MRecvSecond r, _ :: ch => Some (setMain (MDeferLocal r) (setErrCh ch s))
    | _, _ => None
    end
  | EvDeferLocal =>
    match main s with
    | MDeferLocal r => Some (setMain (MDeferRelay r) (closeLocal s))
    | _ => None
    end
  | EvDeferRelay =>
    match main s with
    | MDeferRelay r => Some (setMain (MReturned r) (closeRelay s))
    | _ => None
    end
  end.

(** A schedule: the events in the order they happen. *)
Fixpoint exec (localAddr : string) (tr : list event) (s : state) : option state :=
  match tr with
  | [] => Some s
  | ev :: tr' =>
    match step localAddr ev s with
    | Some s' => exec localAddr tr' s'
    | None => None
    end
  end.

(** [proxyConnection(ctx, localAddr, relayConn)] under the schedule [tr]. *)
Definition proxyConnection (localAddr : string) (tr : list event) : option state :=
  exec localAddr tr init.

(** The value returned, once the call has returned. *)
Definition returned (s : state) : option (option error) :=
  match main s with
  | MReturned r => Some r
  | _ => None
  end.

End Proxy.

(** *** runServiceTunnel

    Resolving and Registering (lines 204-248) run in the calling goroutine
    with no other goroutine of the session alive: [start] is a function of
    the directory, the service and what the SDK answers.  From line 237 on
    there are the accept loop, the goroutine that closes the listener when
    the context is cancelled, and one goroutine per accepted connection. *)
Module Session.

(** A zerolog event: level, the [service] field, the [Err] field and the
    message. *)
Inductive level : Type := InfoLevel | ErrorLevel.

Record logEntry : Type := mkLog {
  lvl : level;
  service : string;
  logErr : option error;
  msg : string
}.

Definition info (serviceName msg : string) : logEntry :=
  mkLog InfoLevel serviceName None msg.

(** [%d] of a non-negative [int]. *)
Definition fmt_d (n : nat) : string := NilEmpty.string_of_uint (Nat.to_uint n).

(** What the SDK answers: the lease id of the new credential, the error
    of [sdk.NewClient] for the given bootstrap servers and the error of
    [client.Listen] for the given name and protocols ([None] is [nil]). *)
Record SDK : Type := mkSDK {
  credID : string;
  NewClient : list string → option error;
  Listen : string → list string → option error
}.

(** [s[:n]]: a slice bound beyond the length panics. *)
Definition sliceTo (s : string) (n : nat) : option string :=
  if decide (n ≤ String.length s)%nat then Some (substring 0 n s) else None.

(** Lines 205 and 213-216: the name the session goes by; [None] is the
    panic of [leaseID[:8]]. *)
Definition displayName (name leaseID : string) : option string :=
  let serviceName := strings.TrimSpace name in
  if decide (serviceName = "")
  then (λ prefix, "tunnel-" +:+ prefix) <$> sliceTo leaseID 8
  else Some serviceName.

Inductive location : Type :=
| LoopTop                             (* line 254: select on ctx.Done() *)
| Accepting                           (* line 260: in listener.Accept() *)
| AcceptFailed (err : error)          (* line 262: select on ctx.Done() *)
| DeferWait (ret : option error)      (* deferred connWG.Wait() *)
| DeferListener (ret : option error)  (* deferred listener.Close() *)
| DeferClient (ret : option error)    (* deferred client.Close() *)
| Returned (ret : option error)
| Panicked.

Inductive closerPC : Type := CNotStarted | CWaiting | CDone.

Record state : Type := mkState {
  ctxDone : bool;
  serviceName : string;
  localAddr : string;
  client : option Closer.t;           (* [None]: sdk.NewClient not passed *)
  listener : option Closer.t;         (* [None]: client.Listen not passed *)
  closer : closerPC;                  (* the goroutine of lines 237-240 *)
  connCount : nat;
  connWG : nat;                       (* proxy goroutines not yet done *)
  pc : location;
  log : list logEntry
}.

Definition setCtxDone (s : state) : state :=
  mkState true (serviceName s) (localAddr s) (client s) (listener s) (closer s)
          (connCount s) (connWG s) (pc s) (log s).
Definition closeListener (s : state) : state :=
  mkState (ctxDone s) (serviceName s) (localAddr s) (client s)
          (Closer.Close <$> listener s) (closer s)
          (connCount s) (connWG s) (pc s) (log s).
Definition closeClient (s : state) : state :=
  mkState (ctxDone s) (serviceName s) (localAddr s) (Closer.Close <$> client s)
          (listener s) (closer s) (connCount s) (connWG s) (pc s) (log s).
Definition setCloser (c : closerPC) (s : state) : state :=
  mkState (ctxDone s) (serviceName s) (localAddr s) (client s) (listener s) c
          (connCount s) (connWG s) (pc s) (log s).
Definition setConnCount (n : nat) (s : state) : state :=
  mkState (ctxDone s) (serviceName s) (localAddr s) (client s) (listener s) (closer s)
          n (connWG s) (pc s) (log s).
Definition setConnWG (n : nat) (s : state) : state :=
  mkState (ctxDone s) (serviceName s) (localAddr s) (client s) (listener s) (closer s)
          (connCount s) n (pc s) (log s).
Definition setAt (p : location) (s : state) : state :=
  mkState (ctxDone s) (serviceName s) (localAddr s) (client s) (listener s) (closer s)
          (connCount s) (connWG s) p (log s).
Definition addLog (l : list logEntry) (s : state) : state :=
  mkState (ctxDone s) (serviceName s) (localAddr s) (client s) (listener s) (closer s)
          (connCount s) (connWG s) (pc s) (log s ++ l).

Definition errResolve (serviceName : string) (err : error) : error :=
  wrapError ("service " +:+ serviceName +:+ ": resolve relay servers: " +:+ Error err) err.
Definition errConnect (serviceName : string) (err : error) : error :=
  wrapError ("service " +:+ serviceName +:+ ": failed to connect to relay: " +:+ Error err) err.
Definition errRegister (serviceName : string) (err : error) : error :=
  wrapError ("service " +:+ serviceName +:+ ": failed to register service: " +:+ Error err) err.

(** Lines 215-221. *)
Definition startupLog (generated : bool) (serviceName localAddr origin : string)
    (bootstrapServers : list string) (leaseID : string) : list logEntry :=
  (if generated
   then [info serviceName "No service name provided; generated automatically"]
   else [])
  ++ [info serviceName ("Local service is reachable at " +:+ localAddr);
      info serviceName ("Starting Portal Tunnel (" +:+ origin +:+ ")...");
      info serviceName ("  Local:    " +:+ localAddr);
      info serviceName ("  Relays:   " +:+ strings.Join bootstrapServers ", ");
      info serviceName ("  Lease ID: " +:+ leaseID)].

(** Lines 242-248; [first] is [bootstrapServers[0]]. *)
Definition accessLog (serviceName leaseID first : string) : list logEntry :=
  [info serviceName "";
   info serviceName "Access via:";
   info serviceName ("- Name:     /peer/" +:+ serviceName);
   info serviceName ("- Lease ID: /peer/" +:+ leaseID);
   info serviceName ("- Example:  http://" +:+ first +:+ "/peer/" +:+ serviceName);
   info serviceName ""].

(** Lines 204-252: the state in which the accept loop is entered, or the
    state of the early return or panic. *)
Definition start (rd : RelayDirectory) (svc : ServiceConfig.t) (origin : string)
    (sdk : SDK) : state :=
  let localAddr := ServiceConfig.Target svc in
  let trimmed := strings.TrimSpace (ServiceConfig.Name svc) in
  let s0 := mkState false trimmed localAddr None None CNotStarted 0 0 LoopTop [] in
  match BootstrapServers rd (ServiceConfig.RelayPreference svc) with
  | (_, Some err) => setAt (Returned (Some (errResolve trimmed err))) s0
  | (bootstrapServers, None) =>
    let leaseID := credID sdk in
    match displayName (ServiceConfig.Name svc) leaseID with
    | None => setAt Panicked s0
    | Some serviceName =>
      let s1 :=
        mkState false serviceName localAddr None None CNotStarted 0 0 LoopTop
          (startupLog (bool_decide (trimmed = "")) serviceName localAddr origin
                      bootstrapServers leaseID) in
      match NewClient sdk bootstrapServers with
      | Some err => setAt (Returned (Some (errConnect serviceName err))) s1
      | None =>
        let s2 :=
          mkState false serviceName localAddr (Some Closer.fresh) None CNotStarted
                  0 0 LoopTop (log s1) in
        match Listen sdk serviceName (ServiceConfig.Protocols svc) with
        | Some err => setAt (DeferClient (Some (errRegister serviceName err))) s2
        | None =>
          match bootstrapServers with
          | [] => setAt Panicked s2
          | first :: _ =>
            mkState false serviceName localAddr (Some Closer.fresh)
                    (Some Closer.fresh) CWaiting 0 0 LoopTop
                    (log s1 ++ accessLog serviceName leaseID first)
          end
        end
      end
    end
  end.

Inductive event : Type :=
| EvCancel                            (* the context is cancelled *)
| EvCloser                            (* lines 238-239: <-ctx.Done(); listener.Close() *)
| EvLoopTop                           (* lines 254-258 *)
| EvAcceptOk (remoteAddr : string)    (* Accept returns a connection; lines 271-281 *)
| EvAcceptErr (err : error)           (* Accept returns err *)
| EvAcceptCheck                       (* lines 262-268 *)
| EvProxyReturn (r : option error)    (* lines 276-280 in a proxy goroutine *)
| EvWait                              (* connWG.Wait() returns *)
| EvDeferListener
| EvDeferClient.

Definition newConnectionLog (s : state) (remoteAddr : string) : logEntry :=
  info (serviceName s)
    ("→ [#" +:+ fmt_d (connCount s) +:+ "] New connection from " +:+ remoteAddr).

(** What a proxy goroutine logs when [proxyConnection] has returned [r]. *)
Definition proxyLog (s : state) (r : option error) : list logEntry :=
  match r with
  | Some err => [mkLog ErrorLevel (serviceName s) (Some err) "Proxy error"]
  | None => []
  end ++ [info (serviceName s) "Connection closed"].

Definition acceptErrorLog (s : state) (err : error) : logEntry :=
  mkLog ErrorLevel (serviceName s) (Some err) "Failed to accept connection".

Definition step (ev : event) (s : state) : option state :=
  match ev with
  | EvCancel => Some (setCtxDone s)
  | EvCloser =>
    match closer s with
    | CWaiting => if ctxDone s then Some (setCloser CDone (closeListener s)) else None
    | _ => None
    end
  | EvLoopTop =>
    match pc s with
    | LoopTop => Some (setAt (if ctxDone s then DeferWait None else Accepting) s)
    | _ => None
    end
  | EvAcceptOk remoteAddr =>
    match pc s with
    | Accepting =>
      let s := setConnCount (S (connCount s)) s in
      let s := addLog [newConnectionLog s remoteAddr] s in
      Some (setAt LoopTop (setConnWG (S (connWG s)) s))
    | _ => None
    end
  | EvAcceptErr err =>
    match pc s with
    | Accepting => Some (setAt (AcceptFailed err) s)
    | _ => None
    end
  | EvAcceptCheck =>
    match pc s with
    | AcceptFailed err =>
      if ctxDone s then Some (setAt (DeferWait None) s)
      else Some (setAt LoopTop (addLog [acceptErrorLog s err] s))
    | _ => None
    end
  | EvProxyReturn r =>
    match connWG s with
    | S n => Some (setConnWG n (addLog (proxyLog s r) s))
    | O => None
    end
  | EvWait =>
    match pc s, connWG s with
    | DeferWait ret, O => Some (setAt (DeferListener ret) s)
    | _, _ => None
    end
  | EvDeferListener =>
    match pc s with
    | DeferListener ret => Some (setAt (DeferClient ret) (closeListener s))
    | _ => None
    end
  | EvDeferClient =>
    match pc s with
    | DeferClient ret => Some (setAt (Returned ret) (closeClient s))
    | _ => None
    end
  end.

Fixpoint exec (tr : list event) (s : state) : option state :=
  match tr with
  | [] => Some s
  | ev :: tr' =>
    match step ev s with
    | Some s' => exec tr' s'
    | None => None
    end
  end.

(** [runServiceTunnel(ctx, relayDir, service, origin)] against the SDK
    answers [sdk] and under the schedule [tr]. *)
Definition runServiceTunnel (rd : RelayDirectory) (svc : ServiceConfig.t)
    (origin : string) (sdk : SDK) (tr : list event) : option state :=
  exec tr (start rd svc origin sdk).

End Session.

(** *** runExposeWithConfig

    From line 77 on: the signal goroutine, one goroutine per service, the
    goroutine that waits for the wait group and closes [doneCh], and the
    caller in its [select].  A session is taken by what it returns; it
    returns [nil] only after the context is cancelled (its accept loop has
    no other exit). *)
Module Supervisor.

Inductive sessionPC : Type :=
| SRunning                            (* in runServiceTunnel *)
| SReturned                           (* returned, error sent; wg.Done() next *)
| SDone.

Inductive mainPC : Type :=
| MSelect                             (* line 110 *)
| MWaitErr (err : error)              (* line 113, after cancel() *)
| MWaitCtx                            (* line 116 *)
| MReturned (ret : option error).

Record state : Type := mkState {
  ctxDone : bool;
  sessions : list sessionPC;
  errCh : list error;                 (* buffered, capacity len(cfg.Services) *)
  sent : list error;                  (* every error sent on [errCh] so far *)
  doneCh : bool;                      (* closed? *)
  main : mainPC
}.

(** The state at line 110 for [n] services. *)
Definition init (n : nat) : state :=
  mkState false (replicate n SRunning) [] [] false MSelect.

Definition setCtxDone (s : state) : state :=
  mkState true (sessions s) (errCh s) (sent s) (doneCh s) (main s).
Definition setSession (i : nat) (p : sessionPC) (s : state) : state :=
  mkState (ctxDone s) (<[i := p]> (sessions s)) (errCh s) (sent s) (doneCh s) (main s).
Definition send (err : error) (s : state) : state :=
  mkState (ctxDone s) (sessions s) (errCh s ++ [err]) (sent s ++ [err]) (doneCh s) (main s).
Definition setErrCh (ch : list error) (s : state) : state :=
  mkState (ctxDone s) (sessions s) ch (sent s) (doneCh s) (main s).
Definition closeDone (s : state) : state :=
  mkState (ctxDone s) (sessions s) (errCh s) (sent s) true (main s).
Definition setMain (m : mainPC) (s : state) : state :=
  mkState (ctxDone s) (sessions s) (errCh s) (sent s) (doneCh s) m.

Definition allDone (s : state) : bool :=
  forallb (λ p, match p with SDone => true | _ => false end) (sessions s).

Inductive event : Type :=
| EvSignal                                       (* lines 84-87: <-sigCh; cancel() *)
| EvSessionReturn (i : nat) (ret : option error) (* line 98; line 99 if ret is not nil *)
| EvSessionDone (i : nat)                        (* deferred wg.Done() *)
| EvWaiter                                       (* lines 106-107: wg.Wait(); close(doneCh) *)
| EvSelectErr                                    (* lines 111-112: case err := <-errCh; cancel() *)
| EvSelectCtx                                    (* line 115: case <-ctx.Done() *)
| EvSelectDone                                   (* lines 119-120; deferred cancel() *)
| EvWaitDone.                                    (* lines 113-114 or 116-118; deferred cancel() *)

Definition step (ev : event) (s : state) : option state :=
  match ev with
  | EvSignal => Some (setCtxDone s)
  | EvSessionReturn i ret =>
    match sessions s !! i, ret with
    | Some SRunning, Some err => Some (setSession i SReturned (send err s))
    | Some SRunning, None =>
      if ctxDone s then Some (setSession i SReturned s) else None
    | _, _ => None
    end
  | EvSessionDone i =>
    match sessions s !! i with
    | Some SReturned => Some (setSession i SDone s)
    | _ => None
    end
  | EvWaiter =>
    if allDone s && negb (doneCh s) then Some (closeDone s) else None
  | EvSelectErr =>
    match main s, errCh s with
    | MSelect, err :: ch => Some (setMain (MWaitErr err) (setCtxDone (setErrCh ch s)))
    | _, _ => None
    end
  | EvSelectCtx =>
    match main s with
    | MSelect => if ctxDone s then Some (setMain MWaitCtx s) else None
    | _ => None
    end
  | EvSelectDone =>
    match main s with
    | MSelect => if doneCh s then Some (setMain (MReturned None) (setCtxDone s)) else None
    | _ => None
    end
  | EvWaitDone =>
    match main s with
    | MWaitErr err =>
      if doneCh s then Some (setMain (MReturned (Some err)) (setCtxDone s)) else None
    | MWaitCtx =>
      if doneCh s then Some (setMain (MReturned None) (setCtxDone s)) else None
    | _ => None
    end
  end.

Fixpoint exec (tr : list event) (s : state) : option state :=
  match tr with
  | [] => Some s
  | ev :: tr' =>
    match step ev s with
    | Some s' => exec tr' s'
    | None => None
    end
  end.

(** [runExposeWithConfig] for a configuration of [n] services, from line
    77 on, under the schedule [tr]. *)
Definition runExposeWithConfig (n : nat) (tr : list event) : option state :=
  exec tr (init n).

End Supervisor.

(** ** cmd/config.go: validation and loading *)

Module TunnelConfig.
Record t : Type := mk { Relays : list RelayConfig.t; Services : list ServiceConfig.t }.
End TunnelConfig.

(** A left fold that also passes the index, as [for i, x := range l]. *)
Fixpoint foldl_i {St A : Type} (f : nat → St → A → St) (i : nat) (s : St) (l : list A)
  : St :=
  match l with
  | [] => s
  | x :: l' => foldl_i f (S i) (f i s x) l'
  end.

Definition newline : string := String "010" EmptyString.

Section validate.

(** [%q] is [strconv.Quote]; the messages only pass the name through it. *)
Variable Quote : string → string.

Definition fmt_index (what : string) (i : nat) : string :=
  what +:+ "[" +:+ Session.fmt_d i +:+ "]".

(** Lines 128-132. *)
Definition validateURL (prefix : string) (j : nat) (errs : list string) (url : string)
  : list string :=
  if decide (strings.TrimSpace url = "")
  then errs ++ [prefix +:+ "." +:+ fmt_index "urls" j +:+ ": url cannot be empty"]
  else errs.

(** Lines 112-133: the body of the loop over [cfg.Relays]; the state is
    [errs] and [relayIdx]. *)
Definition validateRelay (i : nat) (st : list string * gmap string RelayConfig.t)
    (relay : RelayConfig.t) : list string * gmap string RelayConfig.t :=
  let '(errs, relayIdx) := st in
  let prefix := fmt_index "relays" i in
  let name := strings.TrimSpace (RelayConfig.Name relay) in
  let '(errs, relayIdx) :=
    if decide (name = "") then (errs ++ [prefix +:+ ": name is required"], relayIdx)
    else match relayIdx !! name with
         | Some _ => (errs ++ [prefix +:+ ": duplicate relay name " +:+ Quote name], relayIdx)
         | None => (errs, <[name := relay]> relayIdx)
         end in
  let errs :=
    if decide (length (RelayConfig.URLs relay) = 0)
    then errs ++ [prefix +:+ ": at least one url is required"]
    else errs in
  (foldl_i (validateURL prefix) 0 errs (RelayConfig.URLs relay), relayIdx).

(** Lines 148-152. *)
Definition validateProtocol (prefix : string) (j : nat) (errs : list string)
    (proto : string) : list string :=
  if decide (strings.TrimSpace proto = "")
  then errs ++ [prefix +:+ "." +:+ fmt_index "protocols" j +:+ ": protocol cannot be empty"]
  else errs.

(** Lines 156-165. *)
Definition validatePreference (relayIdx : gmap string RelayConfig.t) (prefix : string)
    (j : nat) (errs : list string) (relayName : string) : list string :=
  let relayName := strings.TrimSpace relayName in
  if decide (relayName = "")
  then errs ++ [prefix +:+ "." +:+ fmt_index "relayPreference" j
                +:+ ": relay name cannot be empty"]
  else match relayIdx !! relayName with
       | Some _ => errs
       | None => errs ++ [prefix +:+ "." +:+ fmt_index "relayPreference" j
                          +:+ ": relay " +:+ Quote relayName +:+ " is not defined"]
       end.

(** Lines 138-166: the body of the loop over [cfg.Services]. *)
Definition validateService (relayIdx : gmap string RelayConfig.t) (i : nat)
    (errs : list string) (service : ServiceConfig.t) : list string :=
  let prefix := fmt_index "services" i in
  let errs :=
    if decide (strings.TrimSpace (ServiceConfig.Name service) = "")
    then errs ++ [prefix +:+ ": name is required"] else errs in
  let errs :=
    if decide (strings.TrimSpace (ServiceConfig.Target service) = "")
    then errs ++ [prefix +:+ ": target is required"] else errs in
  let errs := foldl_i (validateProtocol prefix) 0 errs (ServiceConfig.Protocols service) in
  let errs :=
    if decide (length (ServiceConfig.RelayPreference service) = 0)
    then errs ++ [prefix +:+ ": relayPreference must list at least one relay name"]
    else errs in
  foldl_i (validatePreference relayIdx prefix) 0 errs (ServiceConfig.RelayPreference service).

(** Lines 106-166: the messages collected, in order. *)
Definition validationErrors (cfg : TunnelConfig.t) : list string :=
  let errs :=
    if decide (length (TunnelConfig.Relays cfg) = 0)
    then ["at least one relay must be defined"] else [] in
  let '(errs, relayIdx) := foldl_i validateRelay 0 (errs, ∅) (TunnelConfig.Relays cfg) in
  let errs :=
    if decide (length (TunnelConfig.Services cfg) = 0)
    then errs ++ ["at least one service must be defined"] else errs in
  foldl_i (validateService relayIdx) 0 errs (TunnelConfig.Services cfg).

Definition validate (cfg : TunnelConfig.t) : option error :=
  let errs := validationErrors cfg in
  if decide (0 < length errs)%nat
  then Some (errorString ("invalid config:" +:+ newline +:+ " - "
                          +:+ strings.Join errs (newline +:+ " - ")))
  else None.

Definition applyDefaults (cfg : TunnelConfig.t) : TunnelConfig.t :=
  TunnelConfig.mk (TunnelConfig.Relays cfg)
                  (applyServiceDefaults <$> TunnelConfig.Services cfg).

(** [LoadConfig]: [ReadFile] is [os.ReadFile] and [Unmarshal] is
    [yaml.Unmarshal] into a fresh [TunnelConfig]; each returns its value or
    its error. *)
Variable ReadFile : string → string + error.
Variable Unmarshal : string → TunnelConfig.t + error.

Definition LoadConfig (path : string) : TunnelConfig.t + error :=
  match ReadFile path with
  | inr err => inr (wrapError ("read config: " +:+ Error err) err)
  | inl data =>
    match Unmarshal data with
    | inr err => inr (wrapError ("parse config: " +:+ Error err) err)
    | inl cfg =>
      let cfg := applyDefaults cfg in
      match validate cfg with
      | Some err => inr err
      | None => inl cfg
      end
    end
  end.

End validate.

(** ** cmd/main.go: the flags and the single-service mode *)

(** [net.JoinHostPort]: a host with a colon is taken for an IPv6 literal and
    put between brackets. *)
Definition JoinHostPort (host port : string) : string :=
  if existsb (Ascii.eqb ":") (list_ascii_of_string host)
  then "[" +:+ host +:+ "]:" +:+ port
  else host +:+ ":" +:+ port.

(** The package-level flag variables of lines 20-26. *)
Module Flags.
Record t : Type := mk {
  flagConfigPath : string;
  flagRelayURLs : string;
  flagHost : string;
  flagPort : string;
  flagName : string
}.

(** The defaults of lines 37-41. *)
Definition defaults : t := mk "" "ws://localhost:4017/relay" "localhost" "4018" "".
End Flags.

Module ExposeWithFlags.

Inductive outcome : Type :=
| Returns (ret : option error)
| Panics
| Blocked.                              (* the session has not returned yet *)

Definition errNoRelayURL : error :=
  errorString "--relay must include at least one non-empty URL when --config is not provided".

(** Lines 130-136. *)
Definition flagsService (flags : Flags.t) : ServiceConfig.t :=
  applyServiceDefaults
    (ServiceConfig.mk (strings.TrimSpace (Flags.flagName flags)) ["flags"]
                      (JoinHostPort (Flags.flagHost flags) (Flags.flagPort flags)) []).

(** Lines 138-143. *)
Definition flagsDirectory (relayURLs : list string) : RelayDirectory :=
  NewRelayDirectory [RelayConfig.mk "flags" relayURLs].

Section runExposeWithFlags.

(** [utils.ParseURLs], of the SDK's repository. *)
Variable ParseURLs : string → list string.

(** [runExposeWithFlags]: the schedule is the one of the single session;
    the signal goroutine of lines 150-155 is its [EvCancel].  With no relay
    URL nothing is started and there is nothing to schedule. *)
Definition runExposeWithFlags (flags : Flags.t) (sdk : Session.SDK)
    (tr : list Session.event) : option outcome :=
  let relayURLs := ParseURLs (Flags.flagRelayURLs flags) in
  if decide (length relayURLs = 0)
  then match tr with
       | [] => Some (Returns (Some errNoRelayURL))
       | _ => None
       end
  else
    match Session.runServiceTunnel (flagsDirectory relayURLs) (flagsService flags)
                                   "flags" sdk tr with
    | None => None
    | Some s =>
      Some match Session.pc s with
           | Session.Returned ret => Returns ret
           | Session.Panicked => Panics
           | _ => Blocked
           end
    end.

End runExposeWithFlags.

End ExposeWithFlags.

(** * Properties *)

(** ** Evaluation of the library model and of the scenarios *)

Example TrimSpace_ascii : strings.TrimSpace "  ws://a/relay " = "ws://a/relay".
Proof. vm_compute. reflexivity. Qed.

Example TrimSpace_blank :
  strings.TrimSpace (String "009" (String " " (String "010" ""))) = "".
Proof. vm_compute. reflexivity. Qed.

(** U+00A0 (bytes C2 A0) and U+3000 (bytes E3 80 80) are spaces. *)
Example TrimSpace_unicode :
  strings.TrimSpace
    (String "194" (String "160" (String "a" (String " " (String "b"
      (String "227" (String "128" (String "128" "")))))))) = "a b".
Proof. vm_compute. reflexivity. Qed.

(** A byte that is not valid UTF-8 is kept. *)
Example TrimSpace_invalid :
  strings.TrimSpace (String " " (String "194" (String " " ""))) = String "194" "".
Proof. vm_compute. reflexivity. Qed.

Example scenario_AB :
  BootstrapServers dirAB ["relayA"; "relayB"] = (["u1"; "u2"; "u3"], None).
Proof. vm_compute. reflexivity. Qed.

Example scenario_X :
  BootstrapServers dirAB ["relayX"] = ([], Some (errNoBootstrapServers ["relayX"])).
Proof. vm_compute. reflexivity. Qed.

(** ** Relay directory *)

Section first_seen.

Implicit Types l acc : list string.

Lemma filter_all (P : string → Prop) `{!∀ x, Decision (P x)} l :
  (∀ x, x ∈ l → P x) → filter P l = l.
Proof.
  induction l as [|y l IH]; intros HP; [done|].
  rewrite filter_cons_True by (apply HP; left).
  f_equal. apply IH. intros x Hx. apply HP. by right.
Qed.

Lemma first_seen_elem l x : x ∈ first_seen l ↔ x ∈ l.
Proof.
  induction l as [|y l IH]; simpl; [done|].
  rewrite !elem_of_cons, list_elem_of_filter, IH.
  destruct (decide (x = y)); naive_solver.
Qed.

Lemma first_seen_NoDup l : NoDup (first_seen l).
Proof.
  induction l as [|y l IH]; simpl; [constructor|].
  constructor; [|by apply NoDup_filter].
  rewrite list_elem_of_filter. naive_solver.
Qed.

Lemma first_seen_sublist l : first_seen l `sublist_of` l.
Proof.
  induction l as [|y l IH]; simpl; [done|].
  apply sublist_skip. etrans; [apply sublist_filter|done].
Qed.

Lemma filter_not_in_snoc acc x l :
  filter (λ y, y ∉ acc ++ [x]) l = filter (λ y, y ∉ acc) (filter (λ y, y ≠ x) l).
Proof.
  induction l as [|z l IH]; [done|].
  rewrite (filter_cons (λ y, y ≠ x)), (filter_cons (λ y, y ∉ acc ++ [x])).
  destruct (decide (z ≠ x)) as [Hzx|Hzx].
  - rewrite (filter_cons (λ y, y ∉ acc)).
    destruct (decide (z ∉ acc ++ [x])) as [H1|H1], (decide (z ∉ acc)) as [H2|H2];
      rewrite ?IH; try done; exfalso; set_solver.
  - destruct (decide (z ∉ acc ++ [x])) as [H1|H1]; [|done].
    exfalso. apply Hzx. intros ->. set_solver.
Qed.

Lemma filter_not_in_drop acc x l :
  x ∈ acc →
  filter (λ y, y ∉ acc) (filter (λ y, y ≠ x) l) = filter (λ y, y ∉ acc) l.
Proof.
  intros Hx. induction l as [|z l IH]; [done|].
  rewrite (filter_cons (λ y, y ≠ x)), (filter_cons (λ y, y ∉ acc) z l).
  destruct (decide (z ≠ x)) as [Hzx|Hzx].
  - rewrite (filter_cons (λ y, y ∉ acc)). by rewrite IH.
  - destruct (decide (z ∉ acc)) as [H2|H2]; [|done].
    exfalso. apply Hzx. intros ->. done.
Qed.

(** Walking [l1] and then [l2] only appends to what [l1] gave: the order of
    first encounters is kept across the pieces. *)
Lemma first_seen_app l1 l2 :
  first_seen (l1 ++ l2) = first_seen l1 ++ filter (λ y, y ∉ l1) (first_seen l2).
Proof.
  induction l1 as [|x l1 IH]; simpl.
  - symmetry. apply filter_all. intros y _. set_solver.
  - f_equal. rewrite IH, filter_app. f_equal.
    rewrite list_filter_filter. apply list_filter_iff. intros y. set_solver.
Qed.

End first_seen.

(** [servers] is the slice and [seen] the set of its elements. *)
Definition resolveInv (st : resolveState) : Prop :=
  ∀ x, x ∈ st.1 ↔ x ∈ st.2.

Lemma visitURL_spec st url :
  resolveInv st →
  resolveInv (visitURL st url) ∧
  (visitURL st url).2 =
    st.2 ++ filter (λ y, y ∉ st.2) (first_seen (relayCandidates (RelayConfig.mk "" [url]))).
Proof.
  intros Hinv. unfold visitURL, relayCandidates. simpl.
  rewrite filter_cons, filter_nil.
  destruct (decide (strings.TrimSpace url = "")) as [He|He].
  { destruct (decide (strings.TrimSpace url ≠ "")); [done|].
    simpl. by rewrite app_nil_r. }
  destruct (decide (strings.TrimSpace url ≠ "")); [|done].
  simpl. rewrite filter_nil, filter_cons, filter_nil.
  destruct (decide (strings.TrimSpace url ∈ st.1)) as [Hin|Hin].
  - apply Hinv in Hin.
    destruct (decide (strings.TrimSpace url ∉ st.2)); [done|].
    by rewrite app_nil_r.
  - destruct (decide (strings.TrimSpace url ∉ st.2)) as [Hn|Hn].
    + split; [|done]. intros x. simpl. specialize (Hinv x). set_solver.
    + exfalso. apply Hn. intros Hx. by apply Hin, Hinv.
Qed.

Lemma foldl_visitURL_spec urls st :
  resolveInv st →
  resolveInv (foldl visitURL st urls) ∧
  (foldl visitURL st urls).2 =
    st.2 ++ filter (λ y, y ∉ st.2) (first_seen (relayCandidates (RelayConfig.mk "" urls))).
Proof.
  revert st. induction urls as [|u urls IH]; intros st Hinv.
  { simpl. by rewrite app_nil_r. }
  destruct (visitURL_spec st u Hinv) as [Hinv1 Hs1].
  destruct (IH _ Hinv1) as [Hinv2 Hs2].
  split; [done|]. simpl foldl. rewrite Hs2, Hs1. clear IH Hinv2 Hs2 Hs1 Hinv1.
  unfold relayCandidates. simpl. rewrite !filter_cons, filter_nil.
  destruct (decide (strings.TrimSpace u ≠ "")) as [Hu|Hu]; simpl.
  - rewrite filter_nil, !filter_cons, filter_nil.
    destruct (decide (strings.TrimSpace u ∉ st.2)) as [Hn|Hn].
    + rewrite <- app_assoc. simpl. by rewrite filter_not_in_snoc.
    + rewrite app_nil_r. rewrite filter_not_in_drop; [done|].
      by destruct (decide (strings.TrimSpace u ∈ st.2)).
  - by rewrite app_nil_r.
Qed.

Lemma visitRelay_spec rd st p :
  resolveInv st →
  resolveInv (visitRelay rd st p) ∧
  (visitRelay rd st p).2 =
    st.2 ++ filter (λ y, y ∉ st.2) (first_seen (prefCandidates rd p)).
Proof.
  intros Hinv. unfold visitRelay, prefCandidates.
  destruct (decide (strings.TrimSpace p = "")).
  { simpl. by rewrite app_nil_r. }
  destruct (entries rd !! strings.TrimSpace p) as [relay|]; simpl.
  - apply (foldl_visitURL_spec (RelayConfig.URLs relay) st Hinv).
  - by rewrite app_nil_r.
Qed.

Lemma foldl_visitRelay_spec rd prefs st :
  resolveInv st →
  resolveInv (foldl (visitRelay rd) st prefs) ∧
  (foldl (visitRelay rd) st prefs).2 =
    st.2 ++ filter (λ y, y ∉ st.2) (first_seen (candidates rd prefs)).
Proof.
  revert st. induction prefs as [|p prefs IH]; intros st Hinv.
  { simpl. by rewrite app_nil_r. }
  destruct (visitRelay_spec rd st p Hinv) as [Hinv1 Hs1].
  destruct (IH _ Hinv1) as [Hinv2 Hs2].
  split; [done|]. simpl foldl. rewrite Hs2, Hs1.
  unfold candidates. rewrite bind_cons. fold (candidates rd prefs).
  rewrite first_seen_app, filter_app, <- app_assoc. f_equal. f_equal.
  rewrite list_filter_filter. apply list_filter_iff. intros y.
  rewrite not_elem_of_app, list_elem_of_filter, first_seen_elem. naive_solver.
Qed.

(** The servers collected by the two loops are the stable deduplication of
    the candidates. *)
Lemma resolve_first_seen rd prefs :
  (foldl (visitRelay rd) (∅, []) prefs).2 = first_seen (candidates rd prefs).
Proof.
  destruct (foldl_visitRelay_spec rd prefs (∅, [])) as [_ ->].
  { intros x. simpl. set_solver. }
  simpl. apply filter_all. intros y _. set_solver.
Qed.

Lemma BootstrapServers_ok rd prefs servers :
  BootstrapServers rd prefs = (servers, None) →
  servers = first_seen (candidates rd prefs) ∧ servers ≠ [] ∧ prefs ≠ [].
Proof.
  unfold BootstrapServers. rewrite resolve_first_seen.
  destruct (decide (length prefs = 0)); [done|].
  destruct (decide (length (first_seen (candidates rd prefs)) = 0)) as [|Hn]; [done|].
  intros [= <-]. split; [done|]. split; intros E; rewrite E in *; done.
Qed.

Lemma BootstrapServers_servers rd prefs :
  (BootstrapServers rd prefs).1 = first_seen (candidates rd prefs).
Proof.
  unfold BootstrapServers. rewrite resolve_first_seen.
  destruct (decide (length prefs = 0)) as [E|_].
  { by destruct prefs. }
  destruct (decide (length (first_seen (candidates rd prefs)) = 0)) as [E|_]; [|done].
  simpl. by destruct (first_seen (candidates rd prefs)).
Qed.

(** C1.  For every directory and every preference list the URL list returned by
    [BootstrapServers] has no duplicates and is the stable deduplication of
    the URLs met while walking the preferences in order and each relay's URL
    list in order: it has the same elements as that walk, is a sublist of
    it, and resolving a longer preference list only appends to the result
    of a prefix of it.  For [{relayA: [u1,u2], relayB: [u2,u3]}] and
    [[relayA, relayB]] the result is [[u1, u2, u3]]. *)
Theorem BootstrapServers_no_dup_first_seen (rd : RelayDirectory) (prefs : list string) :
  let servers := (BootstrapServers rd prefs).1 in
  NoDup servers
  ∧ servers = first_seen (candidates rd prefs)
  ∧ (∀ u, u ∈ servers ↔ u ∈ candidates rd prefs)
  ∧ servers `sublist_of` candidates rd prefs
  ∧ (∀ more, servers `prefix_of` (BootstrapServers rd (prefs ++ more)).1)
  ∧ BootstrapServers dirAB ["relayA"; "relayB"] = (["u1"; "u2"; "u3"], None).
Proof.
  simpl. rewrite BootstrapServers_servers.
  split; [apply first_seen_NoDup|]. split; [done|].
  split; [intros u; apply first_seen_elem|].
  split; [apply first_seen_sublist|].
  split; [|by vm_compute].
  intros more. rewrite BootstrapServers_servers.
  unfold candidates. rewrite bind_app, first_seen_app. by eexists.
Qed.

Lemma errors_distinct prefs :
  Error errEmptyPreference ≠ Error (errNoBootstrapServers prefs).
Proof. simpl. discriminate. Qed.

Lemma candidates_unknown rd prefs :
  (∀ p, p ∈ prefs → entries rd !! strings.TrimSpace p = None) →
  candidates rd prefs = [].
Proof.
  induction prefs as [|p prefs IH]; intros Hun; [done|].
  unfold candidates. rewrite bind_cons. fold (candidates rd prefs).
  rewrite IH by (intros q Hq; apply Hun; by right).
  unfold prefCandidates. rewrite (Hun p) by left.
  by destruct (decide (strings.TrimSpace p = "")).
Qed.

(** C4.  An empty preference list fails with the "must contain at least one
    relay name" error whatever the directory holds; a non-empty list whose
    names are all unknown resolves to nothing and fails with the "no
    bootstrap servers resolved" error; the two errors, and their messages,
    differ. *)
Theorem BootstrapServers_errors_distinct (rd : RelayDirectory) (prefs : list string) :
  prefs ≠ [] →
  (∀ p, p ∈ prefs → entries rd !! strings.TrimSpace p = None) →
  (∀ rd', BootstrapServers rd' [] = ([], Some errEmptyPreference))
  ∧ BootstrapServers rd prefs = ([], Some (errNoBootstrapServers prefs))
  ∧ errEmptyPreference ≠ errNoBootstrapServers prefs
  ∧ Error errEmptyPreference ≠ Error (errNoBootstrapServers prefs).
Proof.
  intros Hne Hun. split; [done|]. split.
  - unfold BootstrapServers. rewrite resolve_first_seen, candidates_unknown by done.
    destruct (decide (length prefs = 0)) as [E|_]; [by destruct prefs|]. done.
  - split; [|apply errors_distinct].
    intros E. apply (errors_distinct prefs). by rewrite <- E.
Qed.

Lemma BootstrapServers_errors_distinct_witness :
  BootstrapServers dirAB [] = ([], Some errEmptyPreference)
  ∧ BootstrapServers dirAB ["relayX"; " "] =
      ([], Some (errNoBootstrapServers ["relayX"; " "])).
Proof.
  assert (Hne : ["relayX"; " "] ≠ @nil string) by discriminate.
  assert (Hun : ∀ p, p ∈ ["relayX"; " "] → entries dirAB !! strings.TrimSpace p = None).
  { intros p Hp. apply elem_of_cons in Hp as [->|Hp]; [by vm_compute|].
    apply elem_of_cons in Hp as [->|Hp]; [by vm_compute|].
    by apply elem_of_nil in Hp. }
  destruct (BootstrapServers_errors_distinct dirAB ["relayX"; " "] Hne Hun)
    as (H1 & H2 & _).
  split; [apply H1 | apply H2].
Defined.


Lemma candidates_origin rd prefs u :
  u ∈ candidates rd prefs →
  u ≠ "" ∧ ∃ p relay raw,
    p ∈ prefs ∧ strings.TrimSpace p ≠ ""
    ∧ entries rd !! strings.TrimSpace p = Some relay
    ∧ raw ∈ RelayConfig.URLs relay ∧ u = strings.TrimSpace raw.
Proof.
  unfold candidates. rewrite list_elem_of_bind. intros (p & Hu & Hp).
  unfold prefCandidates in Hu.
  destruct (decide (strings.TrimSpace p = "")) as [|Hn]; [by apply elem_of_nil in Hu|].
  destruct (entries rd !! strings.TrimSpace p) as [relay|] eqn:Hrelay;
    [|by apply elem_of_nil in Hu].
  simpl in Hu. unfold relayCandidates in Hu.
  apply list_elem_of_filter in Hu as [Hne Hu].
  apply list_elem_of_fmap in Hu as (raw & -> & Hraw).
  split; [done|]. by exists p, relay, raw.
Qed.



(** A directory with a relay that lists only blank URLs and one whose URLs
    need trimming. *)
Definition dirBlank : RelayDirectory :=
  NewRelayDirectory [RelayConfig.mk "blank" [" "; ""];
                     RelayConfig.mk "padded" [" u1"; "u1 "; "u2"]].


Example BootstrapServers_padded :
  BootstrapServers dirBlank [" padded"; "blank"] = (["u1"; "u2"], None).
Proof. by vm_compute. Qed.

(** ** Connection proxy *)

Module ProxyFacts.
Import Proxy.

Lemma proxy_exec_app addr tr1 tr2 s :
  exec addr (tr1 ++ tr2) s = exec addr tr1 s ≫= exec addr tr2.
Proof.
  revert s. induction tr1 as [|ev tr1 IH]; intros s; simpl; [done|].
  destruct (step addr ev s); simpl; [apply IH|done].
Qed.

(** How often each goroutine has called [Close] on the two connections,
    given where it is. *)
Definition mainRelayCalls (m : mainPC) : nat :=
  match m with
  | MDial | MRecvFirst | MCloseStop _ | MCloseRelay _ => 0
  | MRecvSecond _ | MDeferLocal _ | MDeferRelay _ => 1
  | MReturned _ => 2
  end.

Definition mainLocalCalls (m : mainPC) : nat :=
  match m with
  | MDeferRelay _ | MReturned _ => 1
  | _ => 0
  end.

Definition watcherRelayCalls (w : watcherPC) : nat :=
  match w with
  | WCloseLocal | WDoneCtx => 1
  | _ => 0
  end.

Definition watcherLocalCalls (w : watcherPC) : nat :=
  match w with
  | WDoneCtx => 1
  | _ => 0
  end.

Definition finished (t : taskPC) : nat :=
  match t with
  | TFinished => 1
  | _ => 0
  end.

(** What the caller has received from [errCh] so far. *)
Definition received (m : mainPC) (took : list (option error)) : Prop :=
  match m with
  | MDial => False
  | MRecvFirst => took = []
  | MCloseStop r | MCloseRelay r | MRecvSecond r => took = [r]
  | MDeferLocal r | MDeferRelay r | MReturned r => ∃ x, took = [r; x]
  end.

Definition closerOK (c : Closer.t) (calls : nat) : Prop :=
  Closer.closeCalls c = calls ∧ Closer.closed c = bool_decide (0 < calls).

(** The invariant of a proxy whose dial succeeded. *)
Definition invDialled (s : state) (lc : Closer.t) : Prop :=
  (∃ took, received (main s) took ∧ sent s = took ++ errCh s)
  ∧ length (sent s) = finished (toLocal s) + finished (toRelay s)
  ∧ toLocal s ≠ TNotStarted ∧ toRelay s ≠ TNotStarted
  ∧ watcher s ≠ WNotStarted
  ∧ (0 < watcherRelayCalls (watcher s) → ctxDone s = true)
  ∧ closerOK (relayConn s) (watcherRelayCalls (watcher s) + mainRelayCalls (main s))
  ∧ closerOK lc (watcherLocalCalls (watcher s) + mainLocalCalls (main s)).

(** The invariant before the dial and after a failed dial. *)
Definition invUndialled (addr : string) (s : state) : Prop :=
  sent s = [] ∧ errCh s = []
  ∧ toLocal s = TNotStarted ∧ toRelay s = TNotStarted ∧ watcher s = WNotStarted
  ∧ match main s with
    | MDial => relayConn s = Closer.fresh
    | MDeferRelay r =>
      relayConn s = Closer.fresh ∧ ∃ err, r = Some (errDial addr err)
    | MReturned r =>
      relayConn s = Closer.Close Closer.fresh ∧ ∃ err, r = Some (errDial addr err)
    | _ => False
    end.

Definition inv (addr : string) (s : state) : Prop :=
  match localConn s with
  | Some lc => invDialled s lc
  | None => invUndialled addr s
  end.

Lemma proxy_inv_init addr : inv addr init.
Proof. by repeat split. Qed.

Local Ltac crush :=
  repeat match goal with
  | H : _ ∧ _ |- _ => destruct H
  | H : ∃ _, _ |- _ => destruct H
  | H : closerOK _ _ |- _ => destruct H
  | H : received _ _ |- _ => progress simpl in H
  | H : False |- _ => destruct H
  | |- _ ∧ _ => split
  | |- closerOK _ _ => split
  end;
  simpl in *; simplify_eq; simpl in *;
  try done; try lia; try congruence.

Lemma proxy_step_inv addr ev s s' :
  inv addr s → step addr ev s = Some s' → inv addr s'.
Proof.
  unfold inv. intros Hinv Hstep.
  destruct s as [ctx rc lc st ch snt tl tr w m].
  destruct ev; simpl in Hstep; repeat case_match; simplify_eq; simpl in *;
    unfold invDialled, invUndialled in *; simpl in *.
  all: try (destruct Hinv as ((took & Hrecv & Hsent) & Hlen & ? & ? & ? & ? & Hrc & Hlc);
            simpl in *).
  all: try (split; [ first
      [ by exists took
      | exists took; split; [done|]; rewrite Hsent; by rewrite app_assoc
      | simpl in Hrecv; subst took; eexists; split; [|done]; simpl; eauto ] | ]).
  all: rewrite ?length_app in *; simpl in *.
  all: crush.
  all: try (destruct tr; crush; fail).
  all: try (destruct tl; crush; fail).
  all: try (rewrite ?H, ?H0 in *; simpl; f_equal; lia).
  all: simplify_eq; simpl.
  all: try (symmetry; apply bool_decide_eq_true_2; lia).
  all: eauto.
Qed.

Lemma proxy_exec_inv addr tr s s' :
  inv addr s → exec addr tr s = Some s' → inv addr s'.
Proof.
  revert s. induction tr as [|ev tr IH]; intros s Hinv; simpl.
  { by intros [= <-]. }
  destruct (step addr ev s) as [s1|] eqn:Hstep; [|done].
  apply IH. by eapply proxy_step_inv.
Qed.

Lemma proxyConnection_inv addr tr s :
  proxyConnection addr tr = Some s → inv addr s.
Proof. apply proxy_exec_inv, proxy_inv_init. Qed.

(** The claim of exactly one [Close] per connection, as a statement about
    every schedule. *)
Definition closed_exactly_once : Prop :=
  ∀ addr tr s r lc,
    proxyConnection addr tr = Some s → returned s = Some r →
    localConn s = Some lc →
    Closer.closeCalls (relayConn s) = 1 ∧ Closer.closeCalls lc = 1.

(** The relay side reaches end of stream, the caller closes [stopCh] and
    [relayConn], the other copy then fails, and the deferred calls run. *)
Definition quietSchedule : list event :=
  [EvDialOk; EvCopyToLocal None; EvRecvFirst; EvCloseStop; EvWatchStop;
   EvCloseRelay; EvCopyToRelay (Some (errorString "use of closed network connection"));
   EvRecvSecond; EvDeferLocal; EvDeferRelay].

Example quietSchedule_run :
  ∃ s, proxyConnection "localhost:4018" quietSchedule = Some s
       ∧ returned s = Some None
       ∧ ctxDone s = false
       ∧ relayConn s = Closer.mk true 2
       ∧ localConn s = Some (Closer.mk true 1).
Proof. eexists. by vm_compute. Qed.

(** On the schedule above, without any cancellation, [relayConn.Close] is
    called twice (line 197 and the deferred call of line 166): the proxy
    does not call [Close] exactly once on each connection. *)
Lemma closed_exactly_once_fails : ¬ closed_exactly_once.
Proof.
  intros Hclaim.
  destruct quietSchedule_run as (s & Hrun & Hret & _ & Hrelay & Hlocal).
  destruct (Hclaim _ _ _ _ _ Hrun Hret Hlocal) as [Hcalls _].
  rewrite Hrelay in Hcalls. discriminate.
Qed.

(** C3 (amended).  After a successful dial, on every exit path (end of
    stream, error or cancellation), both the local and the relay connection
    are closed when the proxy call returns, though not by one [Close] each:
    [relayConn.Close] has been called two or three times and
    [localConn.Close] once or twice, exactly twice and once when the
    context is not cancelled. *)
Theorem proxyConnection_closes_both
    (addr : string) (tr : list event) (s : state) (r : option error) (lc : Closer.t) :
  proxyConnection addr tr = Some s →
  returned s = Some r →
  localConn s = Some lc →
  Closer.closed (relayConn s) = true ∧ Closer.closed lc = true
  ∧ (2 ≤ Closer.closeCalls (relayConn s) ≤ 3)%nat
  ∧ (1 ≤ Closer.closeCalls lc ≤ 2)%nat
  ∧ (ctxDone s = false →
     Closer.closeCalls (relayConn s) = 2 ∧ Closer.closeCalls lc = 1).
Proof.
  intros Hrun Hret Hlc. apply proxyConnection_inv in Hrun.
  unfold inv in Hrun. rewrite Hlc in Hrun. unfold returned in Hret.
  unfold invDialled in Hrun.
  destruct (main s) as [| | | | | | |r'] eqn:Hmain; simplify_eq. simpl in Hrun.
  destruct Hrun as (_ & _ & _ & _ & Hw & Hctx & [Hr1 Hr2] & [Hl1 Hl2]).
  rewrite Hr2, Hl2, Hr1, Hl1. simpl.
  split; [apply bool_decide_eq_true_2; lia|].
  split; [apply bool_decide_eq_true_2; lia|].
  destruct (watcher s); simpl in *; repeat split; try lia; try done.
  all: exfalso; rewrite Hctx in * by lia; done.
Qed.

Lemma proxyConnection_closes_both_witness :
  ∃ s lc, proxyConnection "localhost:4018" quietSchedule = Some s
       ∧ localConn s = Some lc
       ∧ Closer.closed (relayConn s) = true ∧ Closer.closed lc = true
       ∧ Closer.closeCalls (relayConn s) = 2 ∧ Closer.closeCalls lc = 1.
Proof.
  set (s := mkState false (Closer.mk true 2) (Some (Closer.mk true 1)) true []
              [None; Some (errorString "use of closed network connection")]
              TFinished TFinished WDoneStop (MReturned None)).
  assert (Hrun : proxyConnection "localhost:4018" quietSchedule = Some s)
    by (vm_compute; reflexivity).
  exists s, (Closer.mk true 1). split; [exact Hrun|]. split; [reflexivity|].
  destruct (proxyConnection_closes_both "localhost:4018" quietSchedule s None
              (Closer.mk true 1) Hrun eq_refl eq_refl)
    as (Hrc & Hlc & _ & _ & Hquiet).
  split; [exact Hrc|]. split; [exact Hlc|]. exact (Hquiet eq_refl).
Defined.

(** A failed dial, possibly after a cancellation: the wrapped error is
    returned after the deferred [relayConn.Close()], nothing else runs. *)
Lemma dial_failure_run addr err :
  proxyConnection addr [EvDialFail err; EvDeferRelay]
  = Some (mkState false (Closer.mk true 1) None false [] []
            TNotStarted TNotStarted WNotStarted (MReturned (Some (errDial addr err)))).
Proof. reflexivity. Qed.

(** C7.  Whenever the proxy call has returned: either the dial failed, and
    then the value returned is the dial error wrapped in "failed to connect
    to local service", the relay connection is closed and no copy task was
    started; or the dial succeeded, and then exactly two results were sent
    on [errCh], the value returned is the first of them, the second was
    received and dropped, and both copy tasks have finished.  A failed dial
    returns at once: the only step left is the deferred close. *)
Theorem proxyConnection_returns_first_error
    (addr : string) (tr : list event) (s : state) (r : option error) :
  proxyConnection addr tr = Some s →
  returned s = Some r →
  match localConn s with
  | None =>
    (∃ err, r = Some (errDial addr err) ∧ Unwrap (errDial addr err) = Some err)
    ∧ relayConn s = Closer.mk true 1
    ∧ sent s = [] ∧ toLocal s = TNotStarted ∧ toRelay s = TNotStarted
  | Some _ =>
    (∃ second, sent s = [r; second]) ∧ errCh s = []
    ∧ toLocal s = TFinished ∧ toRelay s = TFinished
  end
  ∧ (∀ err, ∃ s', proxyConnection addr [EvDialFail err; EvDeferRelay] = Some s'
       ∧ returned s' = Some (Some (errDial addr err)) ∧ localConn s' = None).
Proof.
  intros Hrun Hret. split; [|intros err; eexists; by rewrite dial_failure_run].
  apply proxyConnection_inv in Hrun. unfold inv in Hrun. unfold returned in Hret.
  destruct (localConn s) as [lc|].
  - unfold invDialled in Hrun.
    destruct (main s) as [| | | | | | |r'] eqn:Hmain; simplify_eq. simpl in Hrun.
    destruct Hrun as ((took & (x & ->) & Hsent) & Hlen & Htl & Htr & _).
    rewrite Hsent in Hlen. simpl in Hlen.
    assert (errCh s = []) as Hch.
    { destruct (errCh s); [done|].
      destruct (toLocal s), (toRelay s); simpl in Hlen; lia. }
    rewrite Hch in *. split; [by exists x|]. split; [done|].
    destruct (toLocal s), (toRelay s); simpl in Hlen; try done; lia.
  - unfold invUndialled in Hrun.
    destruct (main s) as [| | | | | | |r'] eqn:Hmain; simplify_eq.
    destruct Hrun as (? & ? & ? & ? & ? & Hrc & err & ->).
    split; [by exists err|]. by rewrite Hrc.
Qed.

(** The relay side fails first, then the context is cancelled and the
    watcher closes both connections. *)
Definition cancelledSchedule : list event :=
  [EvDialOk; EvCopyToLocal (Some (errorString "connection reset by peer"));
   EvCancel; EvWatchCtx; EvRecvFirst; EvWatchCloseLocal;
   EvCopyToRelay None; EvCloseStop; EvCloseRelay; EvRecvSecond;
   EvDeferLocal; EvDeferRelay].

Lemma proxyConnection_returns_first_error_witness :
  ∃ s, proxyConnection "localhost:4018" cancelledSchedule = Some s
       ∧ returned s = Some (Some (errorString "connection reset by peer"))
       ∧ (∃ second, sent s = [Some (errorString "connection reset by peer"); second])
       ∧ errCh s = [] ∧ toLocal s = TFinished ∧ toRelay s = TFinished.
Proof.
  set (s := mkState true (Closer.mk true 3) (Some (Closer.mk true 2)) true []
              [Some (errorString "connection reset by peer"); None]
              TFinished TFinished WDoneCtx
              (MReturned (Some (errorString "connection reset by peer")))).
  assert (Hrun : proxyConnection "localhost:4018" cancelledSchedule = Some s)
    by (vm_compute; reflexivity).
  exists s. split; [exact Hrun|]. split; [reflexivity|].
  exact (proj1 (proxyConnection_returns_first_error "localhost:4018"
                  cancelledSchedule s _ Hrun eq_refl)).
Defined.
End ProxyFacts.

(** ** Tunnel session *)

Module SessionFacts.
Import Session.

Lemma session_exec_app tr1 tr2 s :
  exec (tr1 ++ tr2) s = exec tr1 s ≫= exec tr2.
Proof.
  revert s. induction tr1 as [|ev tr1 IH]; intros s; simpl; [done|].
  destruct (step ev s); simpl; [apply IH|done].
Qed.

(** The invariant of the states reached from [st0], the state at the end of
    Resolving and Registering. *)
Definition inv (st0 s : state) : Prop :=
  serviceName s = serviceName st0
  ∧ localAddr s = localAddr st0
  ∧ Forall (λ e, service e = serviceName s) (log s)
  ∧ match pc st0 with
    | LoopTop =>
      ∃ l c, listener s = Some l ∧ client s = Some c
        ∧ closer s ≠ CNotStarted
        ∧ (closer s = CDone → ctxDone s = true ∧ Closer.closed l = true)
        ∧ match pc s with
          | LoopTop | Accepting | AcceptFailed _ =>
            c = Closer.fresh ∧ (closer s = CWaiting → l = Closer.fresh)
          | DeferWait ret =>
            ret = None ∧ ctxDone s = true ∧ c = Closer.fresh
            ∧ (closer s = CWaiting → l = Closer.fresh)
          | DeferListener ret =>
            ret = None ∧ ctxDone s = true ∧ connWG s = 0 ∧ c = Closer.fresh
            ∧ (closer s = CWaiting → l = Closer.fresh)
          | DeferClient ret =>
            ret = None ∧ ctxDone s = true ∧ connWG s = 0 ∧ c = Closer.fresh
            ∧ Closer.closed l = true
          | Returned ret =>
            ret = None ∧ ctxDone s = true ∧ connWG s = 0
            ∧ c = Closer.Close Closer.fresh ∧ Closer.closed l = true
          | Panicked => False
          end
    | DeferClient ret0 =>
      listener s = None ∧ connWG s = 0 ∧ connCount s = 0 ∧ closer s = CNotStarted
      ∧ ((pc s = DeferClient ret0 ∧ client s = Some Closer.fresh)
         ∨ (pc s = Returned ret0 ∧ client s = Some (Closer.Close Closer.fresh)))
    | Returned _ | Panicked =>
      pc s = pc st0 ∧ listener s = None ∧ client s = None
      ∧ connWG s = 0 ∧ connCount s = 0 ∧ closer s = CNotStarted
    | _ => False
    end.

Lemma Forall_service_app (name : string) (l1 l2 : list logEntry) :
  Forall (λ e, service e = name) l1 → Forall (λ e, service e = name) l2 →
  Forall (λ e, service e = name) (l1 ++ l2).
Proof. intros. by apply Forall_app. Qed.

Lemma proxyLog_service s r : Forall (λ e, service e = serviceName s) (proxyLog s r).
Proof. destruct r; repeat constructor. Qed.

Lemma session_step_inv st0 ev s s' : inv st0 s → step ev s = Some s' → inv st0 s'.
Proof.
  unfold inv. intros (Hname & Haddr & Hlog & Hpc) Hstep.
  destruct s as [ctx name addr cl li clo cnt wg p lg]. simpl in *.
  destruct (pc st0) eqn:Hp0; try done.
  - (* the loop was entered *)
    destruct Hpc as (l & c & -> & -> & Hclo & Hdone & Hpc).
    destruct ev; simpl in Hstep; repeat case_match; simplify_eq; simpl in *.
    all: split; [done|]; split; [done|].
    all: split;
      [ first [ done
              | apply Forall_service_app; [done|];
                first [ apply (proxyLog_service (mkState _ _ _ _ _ _ _ _ _ _))
                      | repeat constructor ] ] | ].
    all: eexists _, _; split; [done|]; split; [done|].
    all: repeat match goal with H : _ ∧ _ |- _ => destruct H end; simplify_eq.
    all: repeat split; try done; try congruence.
    all: try (intros; destruct Hdone as [? ?]; done).
    all: try (intros; exfalso; congruence).
  - (* client.Listen failed *)
    destruct Hpc as (-> & -> & -> & -> & Hpc).
    destruct ev; simpl in Hstep; repeat case_match; simplify_eq; simpl in *.
    all: destruct Hpc as [[? ?]|[? ?]]; simplify_eq.
    all: repeat split; try done; eauto.
  - (* early return *)
    destruct Hpc as (-> & -> & -> & -> & -> & ->).
    destruct ev; simpl in Hstep; repeat case_match; simplify_eq; simpl in *.
    all: repeat split; try done.
  - (* panic *)
    destruct Hpc as (-> & -> & -> & -> & -> & ->).
    destruct ev; simpl in Hstep; repeat case_match; simplify_eq; simpl in *.
    all: repeat split; try done.
Qed.

Lemma session_exec_inv st0 tr s s' : inv st0 s → exec tr s = Some s' → inv st0 s'.
Proof.
  revert s. induction tr as [|ev tr IH]; intros s Hinv; simpl.
  { by intros [= <-]. }
  destruct (step ev s) as [s1|] eqn:Hstep; [|done].
  apply IH. by eapply session_step_inv.
Qed.

Lemma startupLog_service g name addr origin servers lease :
  Forall (λ e, service e = name) (startupLog g name addr origin servers lease).
Proof. unfold startupLog. destruct g; repeat constructor. Qed.

Lemma accessLog_service name lease first :
  Forall (λ e, service e = name) (accessLog name lease first).
Proof. repeat constructor. Qed.

(** Resolving and Registering end in one of five ways. *)
Inductive started (rd : RelayDirectory) (svc : ServiceConfig.t) (sdk : SDK)
    (st0 : state) : Prop :=
| ResolveFailed servers err :
    BootstrapServers rd (ServiceConfig.RelayPreference svc) = (servers, Some err) →
    pc st0 = Returned (Some (errResolve (strings.TrimSpace (ServiceConfig.Name svc)) err)) →
    started rd svc sdk st0
| NamePanicked servers :
    BootstrapServers rd (ServiceConfig.RelayPreference svc) = (servers, None) →
    displayName (ServiceConfig.Name svc) (credID sdk) = None →
    pc st0 = Panicked →
    started rd svc sdk st0
| ConnectFailed servers name err :
    BootstrapServers rd (ServiceConfig.RelayPreference svc) = (servers, None) →
    displayName (ServiceConfig.Name svc) (credID sdk) = Some name →
    NewClient sdk servers = Some err →
    serviceName st0 = name →
    pc st0 = Returned (Some (errConnect name err)) →
    started rd svc sdk st0
| RegisterFailed servers name err :
    BootstrapServers rd (ServiceConfig.RelayPreference svc) = (servers, None) →
    displayName (ServiceConfig.Name svc) (credID sdk) = Some name →
    NewClient sdk servers = None →
    Listen sdk name (ServiceConfig.Protocols svc) = Some err →
    serviceName st0 = name →
    pc st0 = DeferClient (Some (errRegister name err)) →
    started rd svc sdk st0
| Listening servers name :
    BootstrapServers rd (ServiceConfig.RelayPreference svc) = (servers, None) →
    displayName (ServiceConfig.Name svc) (credID sdk) = Some name →
    NewClient sdk servers = None →
    Listen sdk name (ServiceConfig.Protocols svc) = None →
    serviceName st0 = name →
    pc st0 = LoopTop →
    started rd svc sdk st0.

Lemma start_cases rd svc origin sdk :
  started rd svc sdk (start rd svc origin sdk) ∧
  inv (start rd svc origin sdk) (start rd svc origin sdk).
Proof.
  unfold start.
  destruct (BootstrapServers rd (ServiceConfig.RelayPreference svc))
    as [servers [err|]] eqn:Hboot.
  { split; [by eapply ResolveFailed|]. by repeat split. }
  destruct (displayName (ServiceConfig.Name svc) (credID sdk)) as [name|] eqn:Hname.
  2:{ split; [by eapply NamePanicked|]. by repeat split. }
  destruct (NewClient sdk servers) as [err|] eqn:Hconn.
  { split; [by eapply ConnectFailed|].
    repeat split; try done. apply startupLog_service. }
  destruct (Listen sdk name (ServiceConfig.Protocols svc)) as [err|] eqn:Hlisten.
  { split; [by eapply RegisterFailed|].
    repeat split; try done; [apply startupLog_service|]. by left. }
  destruct servers as [|first servers].
  { apply BootstrapServers_ok in Hboot as (_ & ? & _). done. }
  split; [by eapply Listening|].
  repeat split; try done.
  - apply Forall_app. split; [apply startupLog_service|apply accessLog_service].
  - simpl. eexists _, _. by repeat split.
Qed.

Lemma runServiceTunnel_inv rd svc origin sdk tr s :
  runServiceTunnel rd svc origin sdk tr = Some s →
  inv (start rd svc origin sdk) s.
Proof. apply session_exec_inv, start_cases. Qed.

Lemma substring_prefix_length (n : nat) (s : string) :
  (n ≤ String.length s)%nat →
  String.length (substring 0 n s) = n ∧ String.prefix (substring 0 n s) s = true.
Proof.
  revert s. induction n as [|n IH]; intros s Hn.
  { by destruct s. }
  destruct s as [|c s]; simpl in *; [lia|].
  destruct (IH s) as [-> ->]; [lia|].
  split; [done|]. by destruct (Ascii.ascii_dec c c).
Qed.

Lemma displayName_Some name leaseID n :
  displayName name leaseID = Some n → n ≠ "".
Proof.
  unfold displayName.
  destruct (decide (strings.TrimSpace name = "")); [|by intros [= <-]].
  destruct (sliceTo leaseID 8); [|done]. by intros [= <-].
Qed.

Lemma start_panics rd svc origin sdk servers :
  BootstrapServers rd (ServiceConfig.RelayPreference svc) = (servers, None) →
  (pc (start rd svc origin sdk) = Panicked
   ↔ displayName (ServiceConfig.Name svc) (credID sdk) = None).
Proof.
  intros Hboot. destruct (start_cases rd svc origin sdk) as [Hst _].
  destruct Hst as [? ? Hb|? Hb Hn Hpc|? name ? Hb Hn ? ? Hpc
                   |? name ? Hb Hn ? ? ? Hpc|? name Hb Hn ? ? ? Hpc];
    rewrite Hboot in Hb; simplify_eq; rewrite Hpc, ?Hn; split; done.
Qed.

(** C10.  For a blank service name the display name is built from
    [leaseID[:8]], with no check of the length: the slice panics exactly
    when the lease id is shorter than 8 bytes, and so does the session
    once its relays are resolved; with at least 8 bytes the name is
    ["tunnel-"] followed by the first 8 bytes. *)
Theorem displayName_slice_unguarded (name leaseID : string) :
  strings.TrimSpace name = "" →
  (displayName name leaseID = None ↔ (String.length leaseID < 8)%nat)
  ∧ ((8 ≤ String.length leaseID)%nat →
     displayName name leaseID = Some ("tunnel-" +:+ substring 0 8 leaseID))
  ∧ (∀ rd svc origin sdk servers,
       ServiceConfig.Name svc = name → credID sdk = leaseID →
       BootstrapServers rd (ServiceConfig.RelayPreference svc) = (servers, None) →
       (pc (start rd svc origin sdk) = Panicked ↔ (String.length leaseID < 8)%nat)).
Proof.
  intros Hblank.
  assert (Hiff : displayName name leaseID = None ↔ (String.length leaseID < 8)%nat).
  { unfold displayName, sliceTo. rewrite Hblank.
    destruct (decide ("" = "")); [|done].
    destruct (decide (8 ≤ String.length leaseID)%nat); simpl; split; try done; lia. }
  split; [done|]. split.
  - intros Hlen. unfold displayName, sliceTo. rewrite Hblank.
    destruct (decide ("" = "")); [|done].
    by destruct (decide (8 ≤ String.length leaseID)%nat).
  - intros rd svc origin sdk servers <- <- Hboot.
    by rewrite (start_panics _ _ _ _ _ Hboot).
Qed.

Lemma displayName_slice_unguarded_witness :
  displayName "  " "abc" = None ∧ displayName "  " "0123456789" = Some "tunnel-01234567".
Proof.
  assert (Hblank : strings.TrimSpace "  " = "") by (vm_compute; reflexivity).
  split.
  - apply (proj1 (displayName_slice_unguarded "  " "abc" Hblank)). simpl. lia.
  - apply (proj1 (proj2 (displayName_slice_unguarded "  " "0123456789" Hblank))).
    simpl. lia.
Defined.

(** C8.  With a lease id of at least 8 bytes every session gets a
    non-empty name: the trimmed service name when that is not blank, and
    otherwise ["tunnel-"] followed by the first 8 bytes of the lease id.
    Once the relays are resolved, that name is the session's name in every
    state of every schedule, the [service] field of every log line, and
    the name under which [client.Listen] registered the listener. *)
Theorem displayName_synthesized
    (rd : RelayDirectory) (svc : ServiceConfig.t) (origin : string) (sdk : SDK) :
  (8 ≤ String.length (credID sdk))%nat →
  ∃ n, displayName (ServiceConfig.Name svc) (credID sdk) = Some n
    ∧ n ≠ ""
    ∧ (strings.TrimSpace (ServiceConfig.Name svc) = "" →
       n = "tunnel-" +:+ substring 0 8 (credID sdk)
       ∧ String.length (substring 0 8 (credID sdk)) = 8
       ∧ String.prefix (substring 0 8 (credID sdk)) (credID sdk) = true)
    ∧ (strings.TrimSpace (ServiceConfig.Name svc) ≠ "" →
       n = strings.TrimSpace (ServiceConfig.Name svc))
    ∧ (∀ tr s,
         runServiceTunnel rd svc origin sdk tr = Some s →
         (BootstrapServers rd (ServiceConfig.RelayPreference svc)).2 = None →
         serviceName s = n
         ∧ Forall (λ e, service e = n) (log s)
         ∧ (is_Some (listener s) → Listen sdk n (ServiceConfig.Protocols svc) = None)).
Proof.
  intros Hlen.
  assert (∃ n, displayName (ServiceConfig.Name svc) (credID sdk) = Some n) as [n Hn].
  { unfold displayName, sliceTo.
    destruct (decide (strings.TrimSpace (ServiceConfig.Name svc) = "")); [|by eexists].
    destruct (decide (8 ≤ String.length (credID sdk))%nat); [by eexists|done]. }
  exists n. split; [done|]. split; [by eapply displayName_Some|].
  split; [|split].
  - intros Hblank. unfold displayName, sliceTo in Hn. rewrite Hblank in Hn.
    destruct (decide ("" = "")); [|done].
    destruct (decide (8 ≤ String.length (credID sdk))%nat); [|done].
    simpl in Hn. injection Hn as <-. split; [done|].
    by apply substring_prefix_length.
  - intros Hnb. unfold displayName in Hn.
    destruct (decide (strings.TrimSpace (ServiceConfig.Name svc) = "")); [done|].
    by injection Hn as <-.
  - intros tr s Hrun Hres.
    pose proof (runServiceTunnel_inv _ _ _ _ _ _ Hrun) as (Hname & _ & Hlog & Hpc).
    destruct (start_cases rd svc origin sdk) as [Hst _].
    destruct Hst as [? ? Hb|? Hb Hn'|? ? ? Hb Hn' ? Hs0 Hp0
                     |? ? ? Hb Hn' ? ? Hs0 Hp0|? ? Hb Hn' ? Hl Hs0 Hp0];
      rewrite Hb in Hres; simpl in Hres; try done;
      rewrite Hn in Hn'; simplify_eq.
    all: rewrite Hname in *; split; [done|]; split; [done|].
    all: rewrite Hp0 in Hpc.
    + destruct Hpc as (_ & -> & _). by intros [? ?].
    + destruct Hpc as (-> & _). by intros [? ?].
    + done.
Qed.

(** A directory and an SDK that accepts everything. *)
Definition sdkOK : SDK := mkSDK "0123456789abcdef" (λ _, None) (λ _ _, None).

Definition svcBlank : ServiceConfig.t :=
  ServiceConfig.mk " " ["relayA"] "localhost:4018" defaultProtocols.

Lemma displayName_synthesized_witness :
  ∃ n, displayName " " "0123456789abcdef" = Some n ∧ n ≠ "".
Proof.
  assert (Hlen : (8 ≤ String.length (credID sdkOK))%nat) by (simpl; lia).
  destruct (displayName_synthesized dirAB svcBlank "flags" sdkOK Hlen)
    as (n & Hn & Hne & _).
  exists n. split; [exact Hn | exact Hne].
Defined.

(** The errors of Resolving and Registering. *)
Definition setupFailure (rd : RelayDirectory) (svc : ServiceConfig.t) (sdk : SDK)
    (err : error) : Prop :=
  (∃ servers e,
      BootstrapServers rd (ServiceConfig.RelayPreference svc) = (servers, Some e)
      ∧ err = errResolve (strings.TrimSpace (ServiceConfig.Name svc)) e)
  ∨ (∃ servers n e,
      BootstrapServers rd (ServiceConfig.RelayPreference svc) = (servers, None)
      ∧ displayName (ServiceConfig.Name svc) (credID sdk) = Some n
      ∧ ((NewClient sdk servers = Some e ∧ err = errConnect n e)
         ∨ (NewClient sdk servers = None
            ∧ Listen sdk n (ServiceConfig.Protocols svc) = Some e
            ∧ err = errRegister n e))).

(** The value a session returns is fixed when Registering ends. *)
Definition finalResult (st0 : state) : option (option error) :=
  match pc st0 with
  | LoopTop => Some None
  | DeferClient ret | Returned ret => Some ret
  | _ => None
  end.

Lemma inv_result st0 s ret :
  inv st0 s → pc s = Returned ret → finalResult st0 = Some ret.
Proof.
  unfold inv, finalResult. intros (_ & _ & _ & Hpc) Hret.
  destruct (pc st0); try done.
  - destruct Hpc as (l & c & _ & _ & _ & _ & Hpc). rewrite Hret in Hpc.
    by destruct Hpc as (-> & _).
  - destruct Hpc as (_ & _ & _ & _ & [[? _]|[? _]]); congruence.
  - destruct Hpc as (? & _). congruence.
  - destruct Hpc as (? & _). congruence.
Qed.

(** C5.  In every state a session reaches, on every schedule: a non-nil
    value is returned only for a failure of [BootstrapServers],
    [sdk.NewClient] or [client.Listen], and then no listener was ever
    opened and no connection accepted; a failed accept with the context
    not cancelled appends to the log one line at error level that carries
    the accept error, with the message "Failed to accept connection", and
    goes back to the head of the loop, from where [Accept] is called again;
    a proxy goroutine returning an error appends one line at error level
    that carries that error, with the message "Proxy error", then the line
    "Connection closed" (only the latter when it returns [nil]), and
    leaves the session where it is; and the value returned is the same on
    all schedules, whatever the accepts and the proxies did. *)
Theorem session_absorbs_connection_errors
    (rd : RelayDirectory) (svc : ServiceConfig.t) (origin : string) (sdk : SDK)
    (tr : list event) (s : state) :
  runServiceTunnel rd svc origin sdk tr = Some s →
  (∀ err, pc s = Returned (Some err) →
     setupFailure rd svc sdk err ∧ listener s = None ∧ connCount s = 0)
  ∧ (∀ e, pc s = AcceptFailed e → ctxDone s = false →
       exec [EvAcceptCheck; EvLoopTop] s
       = Some (setAt Accepting (addLog [acceptErrorLog s e] s))
       ∧ ∃ s', exec [EvAcceptCheck; EvLoopTop] s = Some s'
           ∧ pc s' = Accepting
           ∧ log s' = log s ++ [{| lvl := ErrorLevel; service := serviceName s;
                                   logErr := Some e;
                                   msg := "Failed to accept connection" |}]
           ∧ ctxDone s' = false ∧ listener s' = listener s
           ∧ connWG s' = connWG s ∧ connCount s' = connCount s)
  ∧ (∀ r, connWG s ≠ 0 →
       ∃ s', step (EvProxyReturn r) s = Some s'
         ∧ pc s' = pc s ∧ ctxDone s' = ctxDone s ∧ listener s' = listener s
         ∧ log s' = log s ++ proxyLog s r
         ∧ log s' = log s
             ++ match r with
                | Some err => [{| lvl := ErrorLevel; service := serviceName s;
                                  logErr := Some err; msg := "Proxy error" |}]
                | None => []
                end
             ++ [{| lvl := InfoLevel; service := serviceName s;
                    logErr := None; msg := "Connection closed" |}]
         ∧ S (connWG s') = connWG s)
  ∧ (∀ tr' s' ret ret',
       runServiceTunnel rd svc origin sdk tr' = Some s' →
       pc s = Returned ret → pc s' = Returned ret' → ret = ret').
Proof.
  intros Hrun. pose proof (runServiceTunnel_inv _ _ _ _ _ _ Hrun) as Hinv.
  split; [|split; [|split]].
  - intros err Hret. pose proof (inv_result _ _ _ Hinv Hret) as Hfin.
    destruct Hinv as (_ & _ & _ & Hpc). unfold finalResult in Hfin.
    destruct (start_cases rd svc origin sdk) as [Hst _].
    destruct Hst as [? ? Hb Hp0|? Hb Hn Hp0|? ? ? Hb Hn Hc Hs0 Hp0
                     |? ? ? Hb Hn Hc Hl Hs0 Hp0|? ? Hb Hn Hc Hl Hs0 Hp0];
      rewrite Hp0 in Hfin, Hpc; simplify_eq.
    + destruct Hpc as (_ & ? & _ & _ & ? & _).
      split; [|done]. left. eauto.
    + destruct Hpc as (_ & ? & _ & _ & ? & _).
      split; [|done]. right. eexists _, _, _. eauto.
    + destruct Hpc as (? & _ & ? & _).
      split; [|done]. right. eexists _, _, _. eauto 10.
  - intros e Hpc Hctx.
    assert (Hexec : exec [EvAcceptCheck; EvLoopTop] s
                    = Some (setAt Accepting (addLog [acceptErrorLog s e] s))).
    { unfold exec, step. rewrite Hpc, Hctx. simpl. by rewrite Hctx. }
    split; [done|]. eexists. split; [exact Hexec|]. by simpl.
  - intros r Hwg. simpl. destruct (connWG s) as [|n] eqn:Hn; [done|].
    eexists. split; [done|]. simpl. repeat split; done.
  - intros tr' s' ret ret' Hrun' Hret Hret'.
    pose proof (runServiceTunnel_inv _ _ _ _ _ _ Hrun') as Hinv'.
    pose proof (inv_result _ _ _ Hinv Hret).
    pose proof (inv_result _ _ _ Hinv' Hret'). congruence.
Qed.

(** When a session has passed Registering it returns [nil]. *)
Lemma listening_returns_nil rd svc origin sdk tr s ret :
  runServiceTunnel rd svc origin sdk tr = Some s →
  is_Some (listener s) → pc s = Returned ret → ret = None.
Proof.
  intros Hrun Hl Hret. pose proof (runServiceTunnel_inv _ _ _ _ _ _ Hrun) as Hinv.
  destruct Hinv as (_ & _ & _ & Hpc).
  destruct (pc (start rd svc origin sdk)); try done.
  - destruct Hpc as (l & c & _ & _ & _ & _ & Hpc). rewrite Hret in Hpc.
    by destruct Hpc as (-> & _).
  - destruct Hpc as (Hn & _). rewrite Hn in Hl. by destruct Hl.
  - destruct Hpc as (_ & Hn & _). rewrite Hn in Hl. by destruct Hl.
  - destruct Hpc as (_ & Hn & _). rewrite Hn in Hl. by destruct Hl.
Qed.

Definition svcA : ServiceConfig.t :=
  ServiceConfig.mk "web" ["relayA"] "localhost:4018" defaultProtocols.

(** An accept fails, a connection is accepted and its proxy fails, then
    the context is cancelled and the session drains and returns. *)
Definition busySchedule : list event :=
  [EvLoopTop; EvAcceptErr (errorString "temporary failure"); EvAcceptCheck;
   EvLoopTop; EvAcceptOk "203.0.113.7:40000";
   EvProxyReturn (Some (errorString "failed to connect to local service"));
   EvCancel; EvCloser; EvLoopTop; EvWait; EvDeferListener; EvDeferClient].

Lemma session_absorbs_connection_errors_witness :
  ∃ s s', runServiceTunnel dirAB svcA "flags" sdkOK
            [EvLoopTop; EvAcceptErr (errorString "temporary failure")] = Some s
       ∧ exec [EvAcceptCheck; EvLoopTop] s = Some s'
       ∧ pc s' = Accepting
       ∧ log s' = log s ++ [{| lvl := ErrorLevel; service := "web";
                               logErr := Some (errorString "temporary failure");
                               msg := "Failed to accept connection" |}].
Proof.
  assert (Hrun : ∃ s, runServiceTunnel dirAB svcA "flags" sdkOK
                        [EvLoopTop; EvAcceptErr (errorString "temporary failure")] = Some s
                      ∧ pc s = AcceptFailed (errorString "temporary failure")
                      ∧ ctxDone s = false ∧ serviceName s = "web").
  { eexists. vm_compute. repeat split; reflexivity. }
  destruct Hrun as (s & Hrun & Hpc & Hctx & Hname).
  destruct (session_absorbs_connection_errors dirAB svcA "flags" sdkOK _ s Hrun)
    as (_ & Haccept & _).
  destruct (Haccept _ Hpc Hctx) as (_ & s' & Hexec & Hpc' & Hlog & _).
  exists s, s'. split; [exact Hrun|]. split; [exact Hexec|]. split; [exact Hpc'|].
  rewrite <- Hname. exact Hlog.
Defined.







End SessionFacts.

(** ** Tunnel supervisor *)

Module SupervisorFacts.
Import Supervisor.

Lemma allDone_lookup s i p :
  allDone s = true → sessions s !! i = Some p → p = SDone.
Proof.
  unfold allDone. rewrite forallb_forall. intros Hall Hi.
  specialize (Hall p). rewrite <- list_elem_of_In in Hall.
  specialize (Hall (list_elem_of_lookup_2 _ _ _ Hi)). by destruct p.
Qed.

Lemma allDone_Forall s : allDone s = true → Forall (λ p, p = SDone) (sessions s).
Proof.
  intros Hall. apply Forall_lookup. intros i p Hi. by eapply allDone_lookup.
Qed.

(** What the caller has taken from [errCh], given where it is. *)
Definition inv (s : state) : Prop :=
  match main s with
  | MSelect => sent s = errCh s
  | MWaitCtx => sent s = errCh s ∧ ctxDone s = true
  | MWaitErr err => sent s = err :: errCh s ∧ ctxDone s = true
  | MReturned None => sent s = errCh s ∧ ctxDone s = true ∧ doneCh s = true
  | MReturned (Some err) =>
    sent s = err :: errCh s ∧ ctxDone s = true ∧ doneCh s = true
  end
  ∧ (doneCh s = true → allDone s = true).

Lemma supervisor_inv_init n : inv (init n).
Proof. by split. Qed.

Lemma supervisor_step_inv ev s s' : inv s → step ev s = Some s' → inv s'.
Proof.
  unfold inv. intros [Hmain Hdone] Hstep.
  destruct s as [ctx ss ch snt dn m]. simpl in *.
  destruct ev; simpl in Hstep; repeat case_match; simplify_eq; simpl in *.
  all: repeat match goal with H : _ ∧ _ |- _ => destruct H end; simplify_eq.
  all: repeat split; try done; try (by rewrite app_comm_cons; f_equal).
  all: try (intros Hd; specialize (Hdone Hd);
            match goal with
            | Hl : _ !! _ = Some _ |- _ =>
              pose proof (allDone_lookup (mkState _ _ _ _ _ _) _ _ Hdone Hl);
                discriminate
            end).
  all: try (intros _; by apply andb_prop in H as [? _]).
  all: try (f_equal; done).
Qed.

Lemma supervisor_exec_inv tr s s' : inv s → exec tr s = Some s' → inv s'.
Proof.
  revert s. induction tr as [|ev tr IH]; intros s Hinv; simpl.
  { by intros [= <-]. }
  destruct (step ev s) as [s1|] eqn:Hstep; [|done].
  apply IH. by eapply supervisor_step_inv.
Qed.

Lemma runExposeWithConfig_inv n tr s : runExposeWithConfig n tr = Some s → inv s.
Proof. apply supervisor_exec_inv, supervisor_inv_init. Qed.

(** The error aggregation policy as a statement about every schedule:
    the value returned is the first error a session sent, and [nil] when
    none was sent. *)
Definition returns_first_error : Prop :=
  ∀ n tr s ret,
    runExposeWithConfig n tr = Some s → main s = MReturned ret → ret = head (sent s).

Definition errRegisterWeb : error :=
  Session.errRegister "web" (errorString "lease rejected").

(** One service; the signal arrives, the session then fails in
    Registering, and the caller's [select] takes [ctx.Done()]. *)
Definition signalSchedule : list event :=
  [EvSignal; EvSessionReturn 0 (Some errRegisterWeb); EvSelectCtx;
   EvSessionDone 0; EvWaiter; EvWaitDone].

Example signalSchedule_run :
  runExposeWithConfig 1 signalSchedule
  = Some (mkState true [SDone] [errRegisterWeb] [errRegisterWeb] true (MReturned None)).
Proof. vm_compute. reflexivity. Qed.

(** One service, no signal; the session fails and [doneCh] is closed
    before the caller's [select] runs; the [select] takes [doneCh]. *)
Definition raceSchedule : list event :=
  [EvSessionReturn 0 (Some errRegisterWeb); EvSessionDone 0; EvWaiter; EvSelectDone].

Example raceSchedule_run :
  runExposeWithConfig 1 raceSchedule
  = Some (mkState true [SDone] [errRegisterWeb] [errRegisterWeb] true (MReturned None)).
Proof. vm_compute. reflexivity. Qed.

(** A session returned an error, yet the supervisor returns [nil]. *)
Lemma returns_first_error_fails : ¬ returns_first_error.
Proof.
  intros Hclaim.
  pose proof (Hclaim 1 signalSchedule _ None signalSchedule_run eq_refl) as Hret.
  discriminate.
Qed.

(** C2 (amended).  On every schedule: when the caller's [select] receives
    from [errCh], the value is the first error any session sent, the
    context is cancelled at once, and the caller then waits for [doneCh]
    and returns that error; when the [select] takes [ctx.Done()] the
    caller waits for [doneCh] and returns [nil].  The supervisor returns
    only after every session goroutine is done and with the context
    cancelled; a non-nil value returned is always the first error sent;
    with no error sent the value is [nil]. *)
Theorem supervisor_first_error_wins (n : nat) (tr : list event) (s : state) :
  runExposeWithConfig n tr = Some s →
  (∀ err ch, main s = MSelect → errCh s = err :: ch →
     head (sent s) = Some err
     ∧ step EvSelectErr s = Some (setMain (MWaitErr err) (setCtxDone (setErrCh ch s))))
  ∧ (∀ err, main s = MWaitErr err →
       head (sent s) = Some err ∧ ctxDone s = true
       ∧ (doneCh s = false → step EvWaitDone s = None)
       ∧ (doneCh s = true →
          step EvWaitDone s = Some (setMain (MReturned (Some err)) (setCtxDone s))))
  ∧ (main s = MWaitCtx →
       ctxDone s = true
       ∧ (doneCh s = false → step EvWaitDone s = None)
       ∧ (doneCh s = true →
          step EvWaitDone s = Some (setMain (MReturned None) (setCtxDone s))))
  ∧ (∀ ret, main s = MReturned ret →
       Forall (λ p, p = SDone) (sessions s) ∧ ctxDone s = true
       ∧ (∀ err, ret = Some err → head (sent s) = Some err)
       ∧ (sent s = [] → ret = None)).
Proof.
  intros Hrun. apply runExposeWithConfig_inv in Hrun as [Hmain Hdone].
  split; [|split; [|split]].
  - intros err ch Hm Hch. rewrite Hm in Hmain. rewrite Hmain, Hch.
    split; [done|]. simpl. by rewrite Hm, Hch.
  - intros err Hm. rewrite Hm in Hmain. destruct Hmain as [-> ->].
    split; [done|]. split; [done|]. simpl. rewrite Hm.
    split; intros ->; done.
  - intros Hm. rewrite Hm in Hmain. destruct Hmain as [_ ->].
    split; [done|]. simpl. rewrite Hm. split; intros ->; done.
  - intros ret Hm. rewrite Hm in Hmain.
    destruct ret as [err|]; destruct Hmain as (Hsent & Hctx & Hd).
    + split; [by apply allDone_Forall, Hdone|]. split; [done|].
      split; [intros ? [= <-]; by rewrite Hsent|]. by rewrite Hsent.
    + split; [by apply allDone_Forall, Hdone|]. split; [done|].
      split; [done|done].
Qed.

(** Two services: the second fails in Registering, the first is then
    cancelled and drains; the supervisor returns the error. *)
Definition failSchedule : list event :=
  [EvSessionReturn 1 (Some errRegisterWeb); EvSelectErr; EvSessionDone 1;
   EvSessionReturn 0 None; EvSessionDone 0; EvWaiter; EvWaitDone].

Lemma supervisor_first_error_wins_witness :
  ∃ s, runExposeWithConfig 2 failSchedule = Some s
       ∧ main s = MReturned (Some errRegisterWeb)
       ∧ Forall (λ p, p = SDone) (sessions s) ∧ ctxDone s = true
       ∧ head (sent s) = Some errRegisterWeb.
Proof.
  set (s := mkState true [SDone; SDone] [] [errRegisterWeb] true
              (MReturned (Some errRegisterWeb))).
  assert (Hrun : runExposeWithConfig 2 failSchedule = Some s)
    by (vm_compute; reflexivity).
  exists s. split; [exact Hrun|]. split; [reflexivity|].
  destruct (supervisor_first_error_wins 2 failSchedule s Hrun)
    as (_ & _ & _ & Hret).
  destruct (Hret _ eq_refl) as (Hall & Hctx & Hfirst & _).
  split; [exact Hall|]. split; [exact Hctx|]. exact (Hfirst _ eq_refl).
Defined.
End SupervisorFacts.

(** ** Building the directory, validation and loading *)

Lemma NewRelayDirectory_last (relays : list RelayConfig.t) (name : string) :
  entries (NewRelayDirectory relays) !! name
  = last (filter (λ r, RelayConfig.Name r = name) relays).
Proof.
  unfold NewRelayDirectory. simpl.
  induction relays as [|relay relays IH] using rev_ind; [done|].
  rewrite foldl_app, filter_app. simpl.
  rewrite filter_cons, filter_nil.
  destruct (decide (RelayConfig.Name relay = name)) as [<-|Hne].
  - rewrite lookup_insert_eq. by rewrite last_snoc.
  - rewrite lookup_insert_ne by done. by rewrite app_nil_r.
Qed.

(** A later relay with the same name replaces an earlier one, and a name
    that no relay carries is absent: looking a name up in the directory
    built from [relays] gives the last relay of the list with exactly that
    name (the untrimmed [Name] is the key). *)
Theorem NewRelayDirectory_lookup (relays : list RelayConfig.t) (name : string) :
  entries (NewRelayDirectory relays) !! name
  = last (filter (λ r, RelayConfig.Name r = name) relays).
Proof. apply NewRelayDirectory_last. Qed.

Lemma BootstrapServers_outcome (rd : RelayDirectory) (prefs : list string) :
  ((BootstrapServers rd prefs).2 = None
   ↔ ∃ p relay raw, p ∈ prefs ∧ strings.TrimSpace p ≠ ""
       ∧ entries rd !! strings.TrimSpace p = Some relay
       ∧ raw ∈ RelayConfig.URLs relay ∧ strings.TrimSpace raw ≠ "")
  ∧ ((BootstrapServers rd prefs).2 = None → (BootstrapServers rd prefs).1 ≠ [])
  ∧ (∀ err, (BootstrapServers rd prefs).2 = Some err →
       (BootstrapServers rd prefs).1 = []
       ∧ (err = errEmptyPreference ∧ prefs = []
          ∨ err = errNoBootstrapServers prefs ∧ prefs ≠ [])).
Proof.
  assert (Hcand : candidates rd prefs ≠ []
    ↔ ∃ p relay raw, p ∈ prefs ∧ strings.TrimSpace p ≠ ""
        ∧ entries rd !! strings.TrimSpace p = Some relay
        ∧ raw ∈ RelayConfig.URLs relay ∧ strings.TrimSpace raw ≠ "").
  { split.
    - intros Hne. destruct (candidates rd prefs) as [|u l] eqn:Hc; [done|].
      assert (Hu : u ∈ candidates rd prefs) by (rewrite Hc; left).
      apply candidates_origin in Hu as (Hn & p & relay & raw & ? & ? & ? & ? & ->).
      by exists p, relay, raw.
    - intros (p & relay & raw & Hp & Hpn & Hrelay & Hraw & Hn) Hnil.
      assert (Hin : strings.TrimSpace raw ∈ candidates rd prefs).
      { unfold candidates. apply list_elem_of_bind. exists p. split; [|done].
        unfold prefCandidates. rewrite Hrelay.
        destruct (decide (strings.TrimSpace p = "")); [done|]. simpl.
        unfold relayCandidates. apply list_elem_of_filter. split; [done|].
        by apply list_elem_of_fmap_2. }
      rewrite Hnil in Hin. by apply elem_of_nil in Hin. }
  rewrite <- Hcand. clear Hcand.
  unfold BootstrapServers. rewrite resolve_first_seen.
  destruct (decide (length prefs = 0)) as [E|E].
  { destruct prefs; [|done]. simpl. split; [split; done|].
    split; [done|]. intros err [= <-]. split; [done|]. by left. }
  assert (prefs ≠ []) by (by destruct prefs).
  destruct (decide (length (first_seen (candidates rd prefs)) = 0)) as [E2|E2]; simpl.
  - assert (candidates rd prefs = []) as ->.
    { destruct (candidates rd prefs); [done|]. simpl in E2. lia. }
    split; [split; done|]. split; [done|]. intros err [= <-]. split; [done|]. by right.
  - split; [|split; [|done]].
    + split; [|done]. intros _ Hc. rewrite Hc in E2. done.
    + intros _ Hn. by rewrite Hn in E2.
Qed.

(** Resolution succeeds exactly when some preference names, after trimming,
    a relay of the directory that has a URL which is not blank; the list
    returned is then not empty.  Otherwise the result is the empty list
    with one of the two errors. *)
Theorem BootstrapServers_succeeds_iff (rd : RelayDirectory) (prefs : list string) :
  ((BootstrapServers rd prefs).2 = None
   ↔ ∃ p relay raw, p ∈ prefs ∧ strings.TrimSpace p ≠ ""
       ∧ entries rd !! strings.TrimSpace p = Some relay
       ∧ raw ∈ RelayConfig.URLs relay ∧ strings.TrimSpace raw ≠ "")
  ∧ ((BootstrapServers rd prefs).2 = None → (BootstrapServers rd prefs).1 ≠ [])
  ∧ (∀ err, (BootstrapServers rd prefs).2 = Some err →
       (BootstrapServers rd prefs).1 = []
       ∧ (err = errEmptyPreference ∧ prefs = []
          ∨ err = errNoBootstrapServers prefs ∧ prefs ≠ [])).
Proof. apply BootstrapServers_outcome. Qed.

Lemma first_seen_absorb (l1 l2 l3 : list string) :
  (∀ x, x ∈ l2 → x ∈ l1) →
  first_seen (l1 ++ l2 ++ l3) = first_seen (l1 ++ l3).
Proof.
  intros Hsub. rewrite !first_seen_app, filter_app. f_equal.
  replace (filter (λ y, y ∉ l1) (first_seen l2)) with (@nil string).
  - simpl. rewrite list_filter_filter. apply list_filter_iff. intros x.
    split; [by intros [? ?]|]. intros Hx. split; [done|]. intros H2. by apply Hx, Hsub.
  - symmetry.
    assert (Hnone : ∀ l, (∀ x, x ∈ l → x ∈ l1) → filter (λ y, y ∉ l1) l = []).
    { induction l as [|y l IH]; intros Hl; [done|].
      rewrite filter_cons_False; [|intros Hn; apply Hn, Hl; left].
      apply IH. intros x Hx. apply Hl. by right. }
    apply Hnone. intros x Hx. by apply Hsub, first_seen_elem.
Qed.

(** Naming a relay a second time changes nothing: a preference whose
    trimmed name already occurred earlier in the list can be dropped
    without changing the servers resolved. *)
Theorem BootstrapServers_repeated_preference
    (rd : RelayDirectory) (before after : list string) (p q : string) :
  q ∈ before →
  strings.TrimSpace p = strings.TrimSpace q →
  (BootstrapServers rd (before ++ p :: after)).1 = (BootstrapServers rd (before ++ after)).1.
Proof.
  intros Hq Hpq. rewrite !BootstrapServers_servers.
  unfold candidates. rewrite !bind_app, bind_cons.
  apply first_seen_absorb. intros x Hx.
  apply list_elem_of_bind. exists q. split; [|done].
  unfold prefCandidates in *. by rewrite <- Hpq.
Qed.

Lemma BootstrapServers_repeated_preference_witness :
  (BootstrapServers dirAB (["relayA"; "relayB"] ++ " relayA " :: ["relayB"])).1
  = (BootstrapServers dirAB (["relayA"; "relayB"] ++ ["relayB"])).1.
Proof.
  assert (Hq : "relayA" ∈ ["relayA"; "relayB"]) by (left).
  assert (Hpq : strings.TrimSpace " relayA " = strings.TrimSpace "relayA")
    by (vm_compute; reflexivity).
  exact (BootstrapServers_repeated_preference dirAB ["relayA"; "relayB"] ["relayB"]
           " relayA " "relayA" Hq Hpq).
Defined.

(** *** What [validate] accepts *)

Definition relayOK (relay : RelayConfig.t) : Prop :=
  strings.TrimSpace (RelayConfig.Name relay) ≠ ""
  ∧ RelayConfig.URLs relay ≠ []
  ∧ Forall (λ url, strings.TrimSpace url ≠ "") (RelayConfig.URLs relay).

Definition relayNames (relays : list RelayConfig.t) : list string :=
  (λ relay, strings.TrimSpace (RelayConfig.Name relay)) <$> relays.

Definition preferenceOK (relays : list RelayConfig.t) (relayName : string) : Prop :=
  strings.TrimSpace relayName ≠ ""
  ∧ strings.TrimSpace relayName ∈ relayNames relays.

Definition serviceOK (relays : list RelayConfig.t) (service : ServiceConfig.t) : Prop :=
  strings.TrimSpace (ServiceConfig.Name service) ≠ ""
  ∧ strings.TrimSpace (ServiceConfig.Target service) ≠ ""
  ∧ Forall (λ proto, strings.TrimSpace proto ≠ "") (ServiceConfig.Protocols service)
  ∧ ServiceConfig.RelayPreference service ≠ []
  ∧ Forall (preferenceOK relays) (ServiceConfig.RelayPreference service).

Definition wellFormed (cfg : TunnelConfig.t) : Prop :=
  TunnelConfig.Relays cfg ≠ []
  ∧ Forall relayOK (TunnelConfig.Relays cfg)
  ∧ NoDup (relayNames (TunnelConfig.Relays cfg))
  ∧ TunnelConfig.Services cfg ≠ []
  ∧ Forall (serviceOK (TunnelConfig.Relays cfg)) (TunnelConfig.Services cfg).

Section validate_facts.

Variable Quote : string → string.

(** A loop whose body appends messages exactly for the elements that fail
    [P] adds nothing exactly when all elements pass. *)
Lemma foldl_i_appends {A : Type} (f : nat → list string → A → list string)
    (P : A → Prop) :
  (∀ i errs x, ∃ new, f i errs x = errs ++ new ∧ (new = [] ↔ P x)) →
  ∀ l i errs, ∃ new, foldl_i f i errs l = errs ++ new ∧ (new = [] ↔ Forall P l).
Proof.
  intros Hf. induction l as [|x l IH]; intros i errs; simpl.
  { exists []. rewrite app_nil_r. split; [done|]. split; [constructor|done]. }
  destruct (Hf i errs x) as (new1 & -> & H1).
  destruct (IH (S i) (errs ++ new1)) as (new2 & -> & H2).
  exists (new1 ++ new2). rewrite app_assoc. split; [done|].
  rewrite Forall_cons, <- H1, <- H2. split.
  - intros E. by apply app_eq_nil in E.
  - intros [-> ->]. done.
Qed.

Lemma append_if (c : Prop) `{!Decision c} (errs : list string) (m : string) :
  ∃ new, (if decide c then errs ++ [m] else errs) = errs ++ new ∧ (new = [] ↔ ¬ c).
Proof.
  destruct (decide c).
  - exists [m]. split; [done|]. split; [done|]. intros Hn. by destruct Hn.
  - exists []. rewrite app_nil_r. split; [done|]. split; done.
Qed.

Lemma validateURLs_spec prefix urls errs :
  ∃ new, foldl_i (validateURL prefix) 0 errs urls = errs ++ new
    ∧ (new = [] ↔ Forall (λ url, strings.TrimSpace url ≠ "") urls).
Proof.
  apply foldl_i_appends. intros i e url. unfold validateURL. apply append_if.
Qed.

Lemma validateProtocols_spec prefix protos errs :
  ∃ new, foldl_i (validateProtocol prefix) 0 errs protos = errs ++ new
    ∧ (new = [] ↔ Forall (λ proto, strings.TrimSpace proto ≠ "") protos).
Proof.
  apply foldl_i_appends. intros i e proto. unfold validateProtocol. apply append_if.
Qed.

Lemma validatePreferences_spec relayIdx prefix prefs errs :
  ∃ new, foldl_i (validatePreference Quote relayIdx prefix) 0 errs prefs = errs ++ new
    ∧ (new = [] ↔ Forall (λ p, strings.TrimSpace p ≠ ""
                              ∧ is_Some (relayIdx !! strings.TrimSpace p)) prefs).
Proof.
  apply foldl_i_appends. intros i e p. unfold validatePreference.
  destruct (decide (strings.TrimSpace p = "")) as [Hb|Hb].
  { eexists. split; [done|]. split; [done|]. by intros [? _]. }
  destruct (relayIdx !! strings.TrimSpace p) eqn:Hl.
  - exists []. rewrite app_nil_r. split; [done|]. split; [|done]. intros _. split; [done|by eexists].
  - eexists. split; [done|]. split; [done|]. intros [_ [? ?]]. done.
Qed.

Lemma validateService_spec relayIdx i errs service :
  ∃ new, validateService Quote relayIdx i errs service = errs ++ new
    ∧ (new = [] ↔
       strings.TrimSpace (ServiceConfig.Name service) ≠ ""
       ∧ strings.TrimSpace (ServiceConfig.Target service) ≠ ""
       ∧ Forall (λ proto, strings.TrimSpace proto ≠ "") (ServiceConfig.Protocols service)
       ∧ ServiceConfig.RelayPreference service ≠ []
       ∧ Forall (λ p, strings.TrimSpace p ≠ ""
                      ∧ is_Some (relayIdx !! strings.TrimSpace p))
                (ServiceConfig.RelayPreference service)).
Proof.
  unfold validateService.
  destruct (append_if (strings.TrimSpace (ServiceConfig.Name service) = "") errs
              (fmt_index "services" i +:+ ": name is required")) as (n1 & -> & H1).
  destruct (append_if (strings.TrimSpace (ServiceConfig.Target service) = "") (errs ++ n1)
              (fmt_index "services" i +:+ ": target is required")) as (n2 & -> & H2).
  destruct (validateProtocols_spec (fmt_index "services" i)
              (ServiceConfig.Protocols service) ((errs ++ n1) ++ n2)) as (n3 & -> & H3).
  destruct (append_if (length (ServiceConfig.RelayPreference service) = 0)
              (((errs ++ n1) ++ n2) ++ n3)
              (fmt_index "services" i
               +:+ ": relayPreference must list at least one relay name"))
    as (n4 & -> & H4).
  destruct (validatePreferences_spec relayIdx (fmt_index "services" i)
              (ServiceConfig.RelayPreference service) ((((errs ++ n1) ++ n2) ++ n3) ++ n4))
    as (n5 & -> & H5).
  exists (n1 ++ n2 ++ n3 ++ n4 ++ n5). rewrite <- !app_assoc. split; [done|].
  rewrite <- H3, <- H5.
  assert (Hlen : length (ServiceConfig.RelayPreference service) ≠ 0
                 ↔ ServiceConfig.RelayPreference service ≠ []).
  { by destruct (ServiceConfig.RelayPreference service). }
  rewrite <- Hlen. clear Hlen. split.
  - intros E. apply app_eq_nil in E as [-> E]. apply app_eq_nil in E as [-> E].
    apply app_eq_nil in E as [-> E]. apply app_eq_nil in E as [-> ->].
    repeat split; try done; [by apply H1|by apply H2|by apply H4].
  - intros (Hn & Ht & -> & Hp & ->).
    apply H1 in Hn as ->. apply H2 in Ht as ->. apply H4 in Hp as ->. done.
Qed.


Lemma validateRelay_spec i errs (idx : gmap string RelayConfig.t) relay :
  ∃ new idx', validateRelay Quote i (errs, idx) relay = (errs ++ new, idx')
    ∧ (∀ k, is_Some (idx' !! k)
            ↔ is_Some (idx !! k)
              ∨ (k ≠ "" ∧ k = strings.TrimSpace (RelayConfig.Name relay)))
    ∧ (new = [] ↔ relayOK relay
                  ∧ idx !! strings.TrimSpace (RelayConfig.Name relay) = None).
Proof.
  unfold validateRelay, relayOK.
  set (name := strings.TrimSpace (RelayConfig.Name relay)).
  set (prefix := fmt_index "relays" i).
  assert (∃ n1 idx',
    (if decide (name = "") then (errs ++ [prefix +:+ ": name is required"], idx)
     else match idx !! name with
          | Some _ => (errs ++ [prefix +:+ ": duplicate relay name " +:+ Quote name], idx)
          | None => (errs, <[name := relay]> idx)
          end) = (errs ++ n1, idx')
    ∧ (∀ k, is_Some (idx' !! k) ↔ is_Some (idx !! k) ∨ (k ≠ "" ∧ k = name))
    ∧ (n1 = [] ↔ name ≠ "" ∧ idx !! name = None)) as (n1 & idx' & -> & Hdom & H1).
  { destruct (decide (name = "")) as [Hb|Hb].
    { eexists _, idx. split; [done|]. split.
      - intros k. split; [by left|]. intros [?|[? ?]]; [done|congruence].
      - split; [done|]. by intros [? _]. }
    destruct (idx !! name) eqn:Hl.
    - eexists _, idx. split; [done|]. split.
      + intros k. split; [by left|]. intros [?|[? ->]]; [done|by eexists].
      + split; [done|]. by intros [_ ?].
    - exists [], (<[name := relay]> idx). rewrite app_nil_r. split; [done|]. split; [|done].
      intros k. destruct (decide (name = k)) as [<-|Hne].
      + rewrite lookup_insert_eq. split; [by right|by eexists].
      + rewrite lookup_insert_ne by done. split; [by left|]. intros [?|[_ ?]]; [done|congruence]. }
  destruct (append_if (length (RelayConfig.URLs relay) = 0) (errs ++ n1)
              (prefix +:+ ": at least one url is required")) as (n2 & -> & H2).
  destruct (validateURLs_spec prefix (RelayConfig.URLs relay) ((errs ++ n1) ++ n2))
    as (n3 & -> & H3).
  exists (n1 ++ n2 ++ n3), idx'. rewrite <- !app_assoc. split; [done|]. split; [done|].
  rewrite <- H3.
  assert (Hlen : length (RelayConfig.URLs relay) ≠ 0 ↔ RelayConfig.URLs relay ≠ []).
  { by destruct (RelayConfig.URLs relay). }
  rewrite <- Hlen. clear Hlen. split.
  - intros E. apply app_eq_nil in E as [-> E]. apply app_eq_nil in E as [-> ->].
    destruct H1 as [H1 _]. destruct (H1 eq_refl). repeat split; try done. by apply H2.
  - intros ((Hn & Hu & ->) & Hnone). apply H2 in Hu as ->.
    destruct H1 as [_ H1]. by rewrite H1.
Qed.

Lemma validateRelays_spec relays : ∀ i errs (idx : gmap string RelayConfig.t),
  ∃ new idx', foldl_i (validateRelay Quote) i (errs, idx) relays = (errs ++ new, idx')
    ∧ (∀ k, is_Some (idx' !! k)
            ↔ is_Some (idx !! k) ∨ (k ≠ "" ∧ k ∈ relayNames relays))
    ∧ (new = [] ↔ Forall relayOK relays ∧ NoDup (relayNames relays)
                  ∧ ∀ k, k ∈ relayNames relays → idx !! k = None).
Proof.
  induction relays as [|relay relays IH]; intros i errs idx; cbn [foldl_i].
  { exists [], idx. rewrite app_nil_r. split; [done|]. split.
    - intros k. split; [by left|]. intros [?|[_ Hk]]; [done|by apply elem_of_nil in Hk].
    - split; [|done]. intros _. split; [constructor|]. split; [constructor|].
      intros k Hk. by apply elem_of_nil in Hk. }
  destruct (validateRelay_spec i errs idx relay) as (n1 & idx1 & -> & Hd1 & H1).
  destruct (IH (S i) (errs ++ n1) idx1) as (n2 & idx2 & -> & Hd2 & H2).
  exists (n1 ++ n2), idx2. rewrite app_assoc. split; [done|].
  set (name := strings.TrimSpace (RelayConfig.Name relay)) in *.
  split.
  - intros k. rewrite Hd2, Hd1. unfold relayNames. rewrite fmap_cons, elem_of_cons.
    fold (relayNames relays). fold name. naive_solver.
  - unfold relayNames. rewrite fmap_cons. fold (relayNames relays). fold name.
    rewrite Forall_cons, NoDup_cons. split.
    + intros E. apply app_eq_nil in E as [E1 E2].
      destruct (proj1 H1 E1) as [Hok Hnone].
      destruct (proj1 H2 E2) as (Hall & Hnd & Hfree).
      assert (Hfresh : ∀ k, k ∈ relayNames relays → idx !! k = None ∧ k ≠ name).
      { intros k Hk. specialize (Hfree k Hk).
        destruct (idx !! k) eqn:Hik.
        - assert (is_Some (idx1 !! k)) as [? ?] by (apply Hd1; left; by eexists). congruence.
        - split; [done|]. intros ->.
          assert (is_Some (idx1 !! name)) as [? ?]; [|congruence].
          apply Hd1. right. split; [apply Hok|done]. }
      split; [by split|]. split; [split; [|done]|].
      * intros Hin. by destruct (Hfresh _ Hin).
      * intros k [->|Hk]%elem_of_cons; [done|]. by apply Hfresh.
    + intros ((Hok & Hall) & (Hnin & Hnd) & Hfree).
      assert (E1 : n1 = []).
      { apply H1. split; [done|]. apply Hfree. left. }
      assert (E2 : n2 = []); [|by rewrite E1, E2].
      apply H2. split; [done|]. split; [done|]. intros k Hk.
      destruct (idx1 !! k) eqn:Hik; [|done].
      assert (is_Some (idx !! k) ∨ k ≠ "" ∧ k = name) as [[? Hs]|[_ ->]]
        by (apply Hd1; by eexists).
      * rewrite Hfree in Hs; [done|by right].
      * done.
Qed.

Lemma validateServices_spec relayIdx services : ∀ i errs,
  ∃ new, foldl_i (validateService Quote relayIdx) i errs services = errs ++ new
    ∧ (new = [] ↔
       Forall (λ service,
         strings.TrimSpace (ServiceConfig.Name service) ≠ ""
         ∧ strings.TrimSpace (ServiceConfig.Target service) ≠ ""
         ∧ Forall (λ proto, strings.TrimSpace proto ≠ "") (ServiceConfig.Protocols service)
         ∧ ServiceConfig.RelayPreference service ≠ []
         ∧ Forall (λ p, strings.TrimSpace p ≠ ""
                        ∧ is_Some (relayIdx !! strings.TrimSpace p))
                  (ServiceConfig.RelayPreference service)) services).
Proof.
  apply foldl_i_appends. intros i errs service. apply validateService_spec.
Qed.

Lemma validationErrors_nil cfg : validationErrors Quote cfg = [] ↔ wellFormed cfg.
Proof.
  unfold validationErrors, wellFormed.
  destruct (append_if (length (TunnelConfig.Relays cfg) = 0) []
              "at least one relay must be defined") as (n0 & E0 & H0).
  simpl in E0. rewrite E0. clear E0.
  destruct (validateRelays_spec (TunnelConfig.Relays cfg) 0 n0 ∅)
    as (n1 & idx & -> & Hdom & H1).
  destruct (append_if (length (TunnelConfig.Services cfg) = 0) (n0 ++ n1)
              "at least one service must be defined") as (n2 & -> & H2).
  destruct (validateServices_spec idx (TunnelConfig.Services cfg) 0 ((n0 ++ n1) ++ n2))
    as (n3 & -> & H3).
  assert (Hl1 : length (TunnelConfig.Relays cfg) ≠ 0 ↔ TunnelConfig.Relays cfg ≠ []).
  { by destruct (TunnelConfig.Relays cfg). }
  assert (Hl2 : length (TunnelConfig.Services cfg) ≠ 0 ↔ TunnelConfig.Services cfg ≠ []).
  { by destruct (TunnelConfig.Services cfg). }
  rewrite <- Hl1, <- Hl2. clear Hl1 Hl2.
  assert (Hsvc : Forall (serviceOK (TunnelConfig.Relays cfg)) (TunnelConfig.Services cfg)
                 ↔ n3 = []).
  { rewrite H3. apply Forall_iff. intros service. unfold serviceOK.
    assert (Hp : Forall (preferenceOK (TunnelConfig.Relays cfg))
                   (ServiceConfig.RelayPreference service)
                 ↔ Forall (λ p, strings.TrimSpace p ≠ ""
                                ∧ is_Some (idx !! strings.TrimSpace p))
                     (ServiceConfig.RelayPreference service)).
    { apply Forall_iff. intros p. unfold preferenceOK. rewrite Hdom.
      rewrite lookup_empty. split.
      - intros [? ?]. split; [done|]. by right.
      - intros [? [[? ?]|[_ ?]]]; done. }
    by rewrite Hp. }
  rewrite Hsvc. clear Hsvc H3. split.
  - intros E. apply app_eq_nil in E as [E ->]. apply app_eq_nil in E as [E ->].
    apply app_eq_nil in E as [-> ->].
    destruct H1 as [H1 _]. destruct (H1 eq_refl) as (? & ? & _).
    repeat split; try done; [by apply H0|by apply H2].
  - intros (Hr & Hok & Hnd & Hs & ->).
    apply H0 in Hr as ->. apply H2 in Hs as ->.
    destruct H1 as [_ H1]. rewrite H1; [done|].
    split; [done|]. split; [done|]. intros k _. apply lookup_empty.
Qed.

End validate_facts.

Lemma validate_nil_iff (Quote : string → string) (cfg : TunnelConfig.t) :
  validate Quote cfg = None ↔ wellFormed cfg.
Proof.
  rewrite <- (validationErrors_nil Quote). unfold validate.
  destruct (validationErrors Quote cfg) as [|e errs]; simpl.
  - destruct (decide (0 < 0)%nat); [lia|done].
  - destruct (decide (0 < S (length errs))%nat); [|lia]. split; done.
Qed.

(** [validate] returns [nil] exactly for the configurations with at least
    one relay and one service, relay names that are not blank and pairwise
    different after trimming, at least one URL per relay and none blank,
    service names, targets and protocols that are not blank, and for each
    service at least one preference, each naming (after trimming) a relay
    of the configuration. *)
Theorem validate_accepts_iff_wellFormed (Quote : string → string) (cfg : TunnelConfig.t) :
  validate Quote cfg = None ↔ wellFormed cfg.
Proof. apply validate_nil_iff. Qed.

Lemma BootstrapServers_unknown rd prefs :
  prefs ≠ [] →
  (∀ p, p ∈ prefs → entries rd !! strings.TrimSpace p = None) →
  BootstrapServers rd prefs = ([], Some (errNoBootstrapServers prefs)).
Proof.
  intros Hne Hun. unfold BootstrapServers.
  rewrite resolve_first_seen, candidates_unknown by done.
  destruct (decide (length prefs = 0)) as [E|_]; [by destruct prefs|]. done.
Qed.

Lemma relayOK_has_url relay :
  relayOK relay →
  ∃ raw, raw ∈ RelayConfig.URLs relay ∧ strings.TrimSpace raw ≠ "".
Proof.
  intros (_ & Hne & Hall). destruct (RelayConfig.URLs relay) as [|raw urls]; [done|].
  exists raw. split; [left|]. by apply Forall_cons in Hall as [? _].
Qed.

(** A validated configuration whose relay names carry no surrounding white
    space resolves: for every service, [BootstrapServers] on the directory
    built from the relays returns servers and no error. *)
Theorem validated_services_resolve
    (Quote : string → string) (cfg : TunnelConfig.t) (svc : ServiceConfig.t) :
  validate Quote cfg = None →
  (∀ relay, relay ∈ TunnelConfig.Relays cfg →
     strings.TrimSpace (RelayConfig.Name relay) = RelayConfig.Name relay) →
  svc ∈ TunnelConfig.Services cfg →
  (BootstrapServers (NewRelayDirectory (TunnelConfig.Relays cfg))
                    (ServiceConfig.RelayPreference svc)).2 = None
  ∧ (BootstrapServers (NewRelayDirectory (TunnelConfig.Relays cfg))
                      (ServiceConfig.RelayPreference svc)).1 ≠ [].
Proof.
  intros Hval Htrim Hsvc.
  apply validate_nil_iff in Hval as (_ & Hrelays & _ & _ & Hservices).
  rewrite Forall_forall in Hservices.
  destruct (Hservices _ Hsvc) as (_ & _ & _ & Hne & Hprefs).
  destruct (ServiceConfig.RelayPreference svc) as [|p prefs] eqn:Hp; [done|].
  apply Forall_cons in Hprefs as [[Hpn Hin] _].
  apply list_elem_of_fmap in Hin as (relay & Hname & Hrelay).
  rewrite Htrim in Hname by done.
  assert (Hlook : ∃ r, entries (NewRelayDirectory (TunnelConfig.Relays cfg))
                         !! strings.TrimSpace p = Some r
                       ∧ r ∈ TunnelConfig.Relays cfg).
  { rewrite NewRelayDirectory_last.
    assert (Hf : relay ∈ filter (λ r, RelayConfig.Name r = strings.TrimSpace p)
                   (TunnelConfig.Relays cfg)).
    { apply list_elem_of_filter. by split. }
    destruct (last _) as [r|] eqn:Hlast.
    - exists r. split; [done|].
      apply last_Some_elem_of in Hlast. by apply list_elem_of_filter in Hlast as [_ ?].
    - apply last_None in Hlast. rewrite Hlast in Hf. by apply elem_of_nil in Hf. }
  destruct Hlook as (r & Hr & Hrin).
  rewrite Forall_forall in Hrelays.
  destruct (relayOK_has_url r (Hrelays _ Hrin)) as (raw & Hraw & Hrawn).
  assert (Hok : (BootstrapServers (NewRelayDirectory (TunnelConfig.Relays cfg))
                   (p :: prefs)).2 = None).
  { apply BootstrapServers_outcome. exists p, r, raw. repeat split; try done. left. }
  split; [done|]. by apply BootstrapServers_outcome.
Qed.

Definition cfgAB : TunnelConfig.t :=
  TunnelConfig.mk
    [RelayConfig.mk "relayA" ["u1"; "u2"]; RelayConfig.mk "relayB" ["u2"; "u3"]]
    [ServiceConfig.mk "web" [" relayB"; "relayA"] "localhost:8080" defaultProtocols].

Lemma validated_services_resolve_witness :
  (BootstrapServers (NewRelayDirectory (TunnelConfig.Relays cfgAB)) [" relayB"; "relayA"]).2
  = None.
Proof.
  assert (Hval : validate (λ s, s) cfgAB = None) by (vm_compute; reflexivity).
  assert (Htrim : ∀ relay, relay ∈ TunnelConfig.Relays cfgAB →
            strings.TrimSpace (RelayConfig.Name relay) = RelayConfig.Name relay).
  { intros relay Hin. apply elem_of_cons in Hin as [->|Hin]; [by vm_compute|].
    apply elem_of_cons in Hin as [->|Hin]; [by vm_compute|]. by apply elem_of_nil in Hin. }
  assert (Hsvc : ServiceConfig.mk "web" [" relayB"; "relayA"] "localhost:8080"
                   defaultProtocols ∈ TunnelConfig.Services cfgAB) by left.
  exact (proj1 (validated_services_resolve (λ s, s) cfgAB _ Hval Htrim Hsvc)).
Defined.

(** The configuration with one relay and one service that prefers it by
    the relay's own name. *)
Definition singleRelayConfig (name : string) (urls : list string)
    (svcName target : string) : TunnelConfig.t :=
  TunnelConfig.mk [RelayConfig.mk name urls]
                  [ServiceConfig.mk svcName [name] target defaultProtocols].

(** Validation compares trimmed names while the directory is keyed by the
    names as written: when the relay's name has surrounding white space the
    configuration passes [validate], yet the service's preference resolves
    to nothing and the session fails with "no bootstrap servers
    resolved". *)
Theorem padded_relay_name_validates_but_fails
    (Quote : string → string) (name : string) (urls : list string)
    (svcName target : string) :
  strings.TrimSpace name ≠ name →
  strings.TrimSpace name ≠ "" →
  urls ≠ [] →
  Forall (λ url, strings.TrimSpace url ≠ "") urls →
  strings.TrimSpace svcName ≠ "" →
  strings.TrimSpace target ≠ "" →
  validate Quote (singleRelayConfig name urls svcName target) = None
  ∧ BootstrapServers (NewRelayDirectory [RelayConfig.mk name urls]) [name]
    = ([], Some (errNoBootstrapServers [name])).
Proof.
  intros Hpad Hname Hurls Hall Hsvc Htarget. split.
  - apply validate_nil_iff. unfold wellFormed, singleRelayConfig. simpl.
    split; [done|]. split; [by repeat constructor|].
    split; [repeat constructor; by intros ?%elem_of_nil|].
    split; [done|]. repeat constructor; done.
  - apply BootstrapServers_unknown; [done|].
    intros p Hp. apply list_elem_of_singleton in Hp as ->.
    rewrite NewRelayDirectory_last. simpl. rewrite filter_cons, filter_nil. simpl.
    destruct (decide (name = strings.TrimSpace name)); [congruence|done].
Qed.

Lemma padded_relay_name_validates_but_fails_witness :
  validate (λ s, s) (singleRelayConfig " edge " ["wss://relay.example/relay"]
                       "web" "localhost:8080") = None
  ∧ BootstrapServers (NewRelayDirectory
                        [RelayConfig.mk " edge " ["wss://relay.example/relay"]]) [" edge "]
    = ([], Some (errNoBootstrapServers [" edge "])).
Proof.
  apply (padded_relay_name_validates_but_fails (λ s, s)).
  - by vm_compute.
  - by vm_compute.
  - discriminate.
  - repeat constructor. by vm_compute.
  - by vm_compute.
  - by vm_compute.
Defined.

(** A configuration returned by [LoadConfig] is the parsed one with the
    protocol defaults applied; it passes validation, and every service has
    at least one protocol. *)
Theorem LoadConfig_ok_is_valid
    (Quote : string → string) (ReadFile : string → string + error)
    (Unmarshal : string → TunnelConfig.t + error) (path : string) (cfg : TunnelConfig.t) :
  LoadConfig Quote ReadFile Unmarshal path = inl cfg →
  (∃ data parsed, ReadFile path = inl data ∧ Unmarshal data = inl parsed
     ∧ cfg = applyDefaults parsed)
  ∧ wellFormed cfg
  ∧ Forall (λ svc, ServiceConfig.Protocols svc ≠ []) (TunnelConfig.Services cfg).
Proof.
  unfold LoadConfig. intros Hload.
  destruct (ReadFile path) as [data|] eqn:Hread; [|done].
  destruct (Unmarshal data) as [parsed|] eqn:Hparse; [|done].
  destruct (validate Quote (applyDefaults parsed)) eqn:Hval; [done|].
  injection Hload as <-. split; [by exists data, parsed|].
  split; [by apply (validate_nil_iff Quote)|].
  unfold applyDefaults. simpl. apply Forall_fmap, Forall_forall. intros svc _. simpl.
  unfold applyServiceDefaults.
  destruct (decide (length (ServiceConfig.Protocols svc) = 0)) as [|Hn]; [done|].
  intros E. by rewrite E in Hn.
Qed.

Lemma LoadConfig_ok_is_valid_witness :
  wellFormed (applyDefaults
    (TunnelConfig.mk [RelayConfig.mk "relayA" ["u1"]]
                     [ServiceConfig.mk "web" ["relayA"] "localhost:8080" []])).
Proof.
  set (parsed := TunnelConfig.mk [RelayConfig.mk "relayA" ["u1"]]
                   [ServiceConfig.mk "web" ["relayA"] "localhost:8080" []]).
  assert (Hload : LoadConfig (λ s, s) (λ _, inl "relays: ...") (λ _, inl parsed)
                    "config.yaml" = inl (applyDefaults parsed))
    by (vm_compute; reflexivity).
  exact (proj1 (proj2 (LoadConfig_ok_is_valid _ _ _ _ _ Hload))).
Defined.

(** ** More on the tunnel session *)

Module SessionMore.
Import Session SessionFacts.

Lemma step_keeps_ctx ev s s' :
  ev ≠ EvCancel → step ev s = Some s' → ctxDone s' = ctxDone s.
Proof.
  intros Hev Hstep. destruct s as [ctx name addr cl li clo cnt wg p lg].
  destruct ev; try done; simpl in Hstep; repeat case_match; by simplify_eq.
Qed.

Lemma exec_cancel_seen tr s s' :
  exec tr s = Some s' → ctxDone s = false → ctxDone s' = true → EvCancel ∈ tr.
Proof.
  revert s. induction tr as [|ev tr IH]; intros s; simpl.
  { intros [= <-] ? ?. congruence. }
  destruct (step ev s) as [s1|] eqn:Hstep; [|done]. intros Hexec Hf Ht.
  assert (Hcase : ev = EvCancel ∨ ev ≠ EvCancel) by (destruct ev; (by left) || by right).
  destruct Hcase as [->|Hev]; [left|].
  right. apply (IH s1); [done| |done]. by rewrite (step_keeps_ctx _ _ _ Hev Hstep).
Qed.

Lemma start_ctx rd svc origin sdk : ctxDone (start rd svc origin sdk) = false.
Proof. unfold start. by repeat case_match. Qed.

Lemma returned_error_is_setup rd svc origin sdk tr s err :
  runServiceTunnel rd svc origin sdk tr = Some s →
  pc s = Returned (Some err) →
  setupFailure rd svc sdk err ∧ listener s = None.
Proof.
  intros Hrun Hret. pose proof (runServiceTunnel_inv _ _ _ _ _ _ Hrun) as Hinv.
  pose proof (inv_result _ _ _ Hinv Hret) as Hfin.
  destruct Hinv as (_ & _ & _ & Hpc). unfold finalResult in Hfin.
  destruct (start_cases rd svc origin sdk) as [Hst _].
  destruct Hst as [? ? Hb Hp0|? Hb Hn Hp0|? ? ? Hb Hn Hc Hs0 Hp0
                   |? ? ? Hb Hn Hc Hl Hs0 Hp0|? ? Hb Hn Hc Hl Hs0 Hp0];
    rewrite Hp0 in Hfin, Hpc; simplify_eq.
  - destruct Hpc as (_ & ? & _). split; [|done]. left. eauto.
  - destruct Hpc as (_ & ? & _). split; [|done]. right. eexists _, _, _. eauto.
  - destruct Hpc as (? & _). split; [|done]. right. eexists _, _, _. eauto 10.
Qed.

Lemma returned_nil_was_listening rd svc origin sdk tr s :
  runServiceTunnel rd svc origin sdk tr = Some s →
  pc s = Returned None →
  ctxDone s = true ∧ EvCancel ∈ tr
  ∧ (∃ l, listener s = Some l ∧ Closer.closed l = true)
  ∧ client s = Some (Closer.Close Closer.fresh).
Proof.
  intros Hrun Hret. pose proof (runServiceTunnel_inv _ _ _ _ _ _ Hrun) as Hinv.
  pose proof (inv_result _ _ _ Hinv Hret) as Hfin.
  destruct Hinv as (_ & _ & _ & Hpc). unfold finalResult in Hfin.
  destruct (start_cases rd svc origin sdk) as [Hst _].
  destruct Hst as [? ? Hb Hp0|? Hb Hn Hp0|? ? ? Hb Hn Hc Hs0 Hp0
                   |? ? ? Hb Hn Hc Hl Hs0 Hp0|? ? Hb Hn Hc Hl Hs0 Hp0];
    rewrite Hp0 in Hfin, Hpc; simplify_eq.
  destruct Hpc as (l & c & Hl' & Hc' & _ & _ & Hloop). rewrite Hret in Hloop.
  destruct Hloop as (_ & Hctx & _ & -> & Hcl).
  split; [done|]. split; [|split; [by exists l|done]].
  eapply exec_cancel_seen; [exact Hrun|apply start_ctx|done].
Qed.

(** A session returns [nil] only after its context was cancelled: the
    schedule then contains the cancellation, the session had passed
    Registering, and its listener and client are closed. *)
Theorem session_nil_only_after_cancel
    (rd : RelayDirectory) (svc : ServiceConfig.t) (origin : string) (sdk : SDK)
    (tr : list event) (s : state) :
  runServiceTunnel rd svc origin sdk tr = Some s →
  pc s = Returned None →
  ctxDone s = true ∧ EvCancel ∈ tr
  ∧ (∃ l, listener s = Some l ∧ Closer.closed l = true)
  ∧ client s = Some (Closer.Close Closer.fresh).
Proof. apply returned_nil_was_listening. Qed.

Lemma session_nil_only_after_cancel_witness :
  EvCancel ∈ busySchedule.
Proof.
  assert (Hrun : ∃ s, runServiceTunnel dirAB svcA "flags" sdkOK busySchedule = Some s
                      ∧ pc s = Returned None).
  { eexists. vm_compute. split; reflexivity. }
  destruct Hrun as (s & Hrun & Hret).
  exact (proj1 (proj2 (session_nil_only_after_cancel dirAB svcA "flags" sdkOK
                         busySchedule s Hrun Hret))).
Defined.

(** The accepted connections and the proxy goroutines that have finished,
    counted on the schedule. *)
Definition isAccept (ev : event) : bool :=
  match ev with EvAcceptOk _ => true | _ => false end.

Definition isProxyReturn (ev : event) : bool :=
  match ev with EvProxyReturn _ => true | _ => false end.

Definition accepted (tr : list event) : nat :=
  length (filter (λ ev, isAccept ev = true) tr).

Definition proxied (tr : list event) : nat :=
  length (filter (λ ev, isProxyReturn ev = true) tr).

Lemma step_counts ev s s' :
  step ev s = Some s' →
  connCount s' = (connCount s + accepted [ev])%nat
  ∧ (connWG s' + proxied [ev] = connWG s + accepted [ev])%nat.
Proof.
  intros Hstep. destruct s as [ctx name addr cl li clo cnt wg p lg].
  destruct ev; simpl in Hstep; repeat case_match; simplify_eq;
    unfold accepted, proxied; simpl; lia.
Qed.

Lemma exec_counts tr s s' :
  exec tr s = Some s' →
  connCount s' = (connCount s + accepted tr)%nat
  ∧ (connWG s' + proxied tr = connWG s + accepted tr)%nat.
Proof.
  revert s. induction tr as [|ev tr IH]; intros s; simpl.
  { intros [= <-]. unfold accepted, proxied. simpl. lia. }
  destruct (step ev s) as [s1|] eqn:Hstep; [|done]. intros Hexec.
  destruct (step_counts _ _ _ Hstep) as [H1 H2].
  destruct (IH _ Hexec) as [H3 H4].
  unfold accepted, proxied in *. rewrite !(filter_cons _ ev) in *.
  rewrite !filter_nil in *.
  repeat case_decide; simpl in *; lia.
Qed.

Lemma start_counts rd svc origin sdk :
  connCount (start rd svc origin sdk) = 0 ∧ connWG (start rd svc origin sdk) = 0.
Proof. unfold start. by repeat case_match. Qed.

(** The connection counter is the number of connections accepted so far, and
    the wait group holds the accepted connections whose proxy goroutine has
    not finished; when the session has returned, every proxy goroutine it
    started has finished. *)
Theorem session_drains_all_proxies
    (rd : RelayDirectory) (svc : ServiceConfig.t) (origin : string) (sdk : SDK)
    (tr : list event) (s : state) :
  runServiceTunnel rd svc origin sdk tr = Some s →
  connCount s = accepted tr
  ∧ (connWG s + proxied tr = accepted tr)%nat
  ∧ (∀ ret, pc s = Returned ret → proxied tr = accepted tr).
Proof.
  intros Hrun. destruct (exec_counts _ _ _ Hrun) as [H1 H2].
  destruct (start_counts rd svc origin sdk) as [Hc Hw]. rewrite Hc in H1. rewrite Hw in H2.
  simpl in *. split; [done|]. split; [done|].
  intros ret Hret. pose proof (runServiceTunnel_inv _ _ _ _ _ _ Hrun) as (_ & _ & _ & Hpc).
  assert (connWG s = 0); [|lia].
  destruct (pc (start rd svc origin sdk)); try done.
  - destruct Hpc as (l & c & _ & _ & _ & _ & Hloop). rewrite Hret in Hloop.
    by destruct Hloop as (_ & _ & ? & _).
  - by destruct Hpc as (_ & ? & _).
  - by destruct Hpc as (_ & _ & _ & ? & _).
  - by destruct Hpc as (_ & _ & _ & ? & _).
Qed.

Lemma session_drains_all_proxies_witness :
  proxied busySchedule = accepted busySchedule.
Proof.
  assert (Hrun : ∃ s, runServiceTunnel dirAB svcA "flags" sdkOK busySchedule = Some s
                      ∧ pc s = Returned None).
  { eexists. vm_compute. split; reflexivity. }
  destruct Hrun as (s & Hrun & Hret).
  exact (proj2 (proj2 (session_drains_all_proxies dirAB svcA "flags" sdkOK
                         busySchedule s Hrun)) None Hret).
Defined.

(** How often [listener.Close] has been called: by the closing goroutine
    and by the deferred call. *)
Definition closerCalls (c : closerPC) : nat :=
  match c with
  | CDone => 1
  | _ => 0
  end.

Definition deferredCalls (p : location) : nat :=
  match p with
  | DeferClient _ | Returned _ => 1
  | _ => 0
  end.

Definition listenerInv (s : state) : Prop :=
  match listener s with
  | None => True
  | Some l =>
    closer s ≠ CNotStarted
    ∧ Closer.closeCalls l = (closerCalls (closer s) + deferredCalls (pc s))%nat
  end.

Lemma step_listenerInv ev s s' : listenerInv s → step ev s = Some s' → listenerInv s'.
Proof.
  unfold listenerInv. intros Hinv Hstep.
  destruct s as [ctx name addr cl li clo cnt wg p lg]. simpl in *.
  destruct ev; simpl in Hstep; repeat case_match; simplify_eq; simpl in *;
    try done; destruct Hinv as [Hc Hn]; split; try done; simplify_eq; simpl in *; lia.
Qed.

Lemma exec_listenerInv tr s s' : listenerInv s → exec tr s = Some s' → listenerInv s'.
Proof.
  revert s. induction tr as [|ev tr IH]; intros s Hinv; simpl.
  { by intros [= <-]. }
  destruct (step ev s) as [s1|] eqn:Hstep; [|done].
  apply IH. by eapply step_listenerInv.
Qed.

Lemma start_listenerInv rd svc origin sdk : listenerInv (start rd svc origin sdk).
Proof.
  destruct (start_cases rd svc origin sdk) as [_ (_ & _ & _ & Hpc)].
  unfold listenerInv.
  destruct (pc (start rd svc origin sdk)) eqn:Hp0; try done.
  - destruct Hpc as (l & c & -> & _ & Hclo & Hdone & -> & Hw).
    split; [done|]. destruct (closer (start rd svc origin sdk)); try done.
    + by rewrite Hw.
    + exfalso. destruct Hdone as [Hctx _]; [done|]. by rewrite start_ctx in Hctx.
  - by destruct Hpc as (-> & _).
  - by destruct Hpc as (_ & -> & _).
  - by destruct Hpc as (_ & -> & _).
Qed.

(** When a session that had registered its listener has returned,
    [client.Close] has been called exactly once and [listener.Close] once
    or twice: once by the deferred call, and once more if the closing
    goroutine has already run (it can still run after the return). *)
Theorem session_close_calls
    (rd : RelayDirectory) (svc : ServiceConfig.t) (origin : string) (sdk : SDK)
    (tr : list event) (s : state) (ret : option error) (l : Closer.t) :
  runServiceTunnel rd svc origin sdk tr = Some s →
  pc s = Returned ret →
  listener s = Some l →
  client s = Some (Closer.mk true 1)
  ∧ Closer.closeCalls l = (closerCalls (closer s) + 1)%nat
  ∧ (closer s = CWaiting →
     ∃ s', step EvCloser s = Some s' ∧ pc s' = Returned ret
       ∧ (Closer.closeCalls <$> listener s') = Some 2).
Proof.
  intros Hrun Hret Hl.
  pose proof (exec_listenerInv _ _ _ (start_listenerInv rd svc origin sdk) Hrun) as Hli.
  unfold listenerInv in Hli. rewrite Hl, Hret in Hli. destruct Hli as [Hcn Hcalls].
  pose proof (runServiceTunnel_inv _ _ _ _ _ _ Hrun) as (_ & _ & _ & Hpc).
  assert (Hc : client s = Some (Closer.mk true 1) ∧ ctxDone s = true).
  { destruct (pc (start rd svc origin sdk)); try done.
    - destruct Hpc as (l' & c & _ & Hc & _ & _ & Hloop). rewrite Hret in Hloop.
      destruct Hloop as (_ & ? & _ & -> & _). done.
    - destruct Hpc as (Hn & _). congruence.
    - destruct Hpc as (_ & Hn & _). congruence.
    - destruct Hpc as (_ & Hn & _). congruence. }
  destruct Hc as [Hc Hctx]. split; [done|]. split; [done|].
  intros Hw. unfold step. rewrite Hw, Hctx. eexists. split; [done|]. simpl.
  split; [done|]. rewrite Hl. simpl. rewrite Hw in Hcalls. simpl in Hcalls.
  by rewrite Hcalls.
Qed.

Lemma session_close_calls_witness :
  ∃ s, runServiceTunnel dirAB svcA "flags" sdkOK
         [EvLoopTop; EvCancel; EvAcceptErr (errorString "closed"); EvAcceptCheck;
          EvWait; EvDeferListener; EvDeferClient] = Some s
       ∧ client s = Some (Closer.mk true 1).
Proof.
  assert (Hrun : ∃ s, runServiceTunnel dirAB svcA "flags" sdkOK
            [EvLoopTop; EvCancel; EvAcceptErr (errorString "closed"); EvAcceptCheck;
             EvWait; EvDeferListener; EvDeferClient] = Some s
            ∧ pc s = Returned None ∧ listener s = Some (Closer.mk true 1)).
  { eexists. vm_compute. repeat split; reflexivity. }
  destruct Hrun as (s & Hrun & Hret & Hl).
  exists s. split; [exact Hrun|].
  exact (proj1 (session_close_calls dirAB svcA "flags" sdkOK _ s None _ Hrun Hret Hl)).
Defined.
End SessionMore.

(** ** Single-service mode *)

Module ExposeWithFlagsFacts.
Import ExposeWithFlags.

Lemma flags_candidates relayURLs :
  candidates (flagsDirectory relayURLs) ["flags"]
  = filter (λ u, u ≠ "") (strings.TrimSpace <$> relayURLs).
Proof.
  unfold candidates. rewrite bind_cons. simpl. rewrite app_nil_r.
  unfold prefCandidates.
  assert (strings.TrimSpace "flags" = "flags") as -> by (by vm_compute).
  destruct (decide ("flags" = "")); [done|].
  assert (entries (flagsDirectory relayURLs) !! "flags"
          = Some (RelayConfig.mk "flags" relayURLs)) as ->.
  { unfold flagsDirectory, NewRelayDirectory. simpl. apply lookup_insert_eq. }
  done.
Qed.

(** In the single-service mode the bootstrap servers are the relay URLs of
    the command line, trimmed, without the blank ones and without
    repetitions, in their order; resolution fails only when every URL is
    blank. *)
Theorem flags_bootstrap_servers (relayURLs : list string) :
  let urls := filter (λ u, u ≠ "") (strings.TrimSpace <$> relayURLs) in
  BootstrapServers (flagsDirectory relayURLs) ["flags"]
  = if decide (urls = []) then ([], Some (errNoBootstrapServers ["flags"]))
    else (first_seen urls, None).
Proof.
  simpl. unfold BootstrapServers. rewrite resolve_first_seen, flags_candidates.
  destruct (decide (length ["flags"] = 0)); [done|].
  destruct (filter (λ u, u ≠ "") (strings.TrimSpace <$> relayURLs)) as [|u urls]; simpl.
  - by destruct (decide (@nil string = [])).
  - repeat case_decide; done.
Qed.

(** What the single-service mode returns: a non-nil value is the error of an
    empty [--relay] list or a failure of the session's Resolving or
    Registering; [nil] is returned only after the signal cancelled the
    context.  The service it runs has the default protocols and the target
    [host:port] of the flags. *)
Theorem runExposeWithFlags_result
    (ParseURLs : string → list string) (flags : Flags.t) (sdk : Session.SDK)
    (tr : list Session.event) (ret : option error) :
  runExposeWithFlags ParseURLs flags sdk tr = Some (Returns ret) →
  match ret with
  | Some err =>
    (ParseURLs (Flags.flagRelayURLs flags) = [] ∧ err = errNoRelayURL ∧ tr = [])
    ∨ (ParseURLs (Flags.flagRelayURLs flags) ≠ []
       ∧ SessionFacts.setupFailure
           (flagsDirectory (ParseURLs (Flags.flagRelayURLs flags)))
           (flagsService flags) sdk err)
  | None => ParseURLs (Flags.flagRelayURLs flags) ≠ [] ∧ Session.EvCancel ∈ tr
  end
  ∧ ServiceConfig.Protocols (flagsService flags) = defaultProtocols
  ∧ ServiceConfig.Target (flagsService flags)
    = JoinHostPort (Flags.flagHost flags) (Flags.flagPort flags).
Proof.
  unfold runExposeWithFlags. intros Hrun. split; [|done].
  destruct (decide (length (ParseURLs (Flags.flagRelayURLs flags)) = 0)) as [E|E].
  { destruct tr; [|done]. injection Hrun as <-. left.
    by destruct (ParseURLs (Flags.flagRelayURLs flags)). }
  assert (Hne : ParseURLs (Flags.flagRelayURLs flags) ≠ []).
  { intros E'. by rewrite E' in E. }
  destruct (Session.runServiceTunnel _ _ _ _ _) as [s|] eqn:Hs; [|done].
  destruct (Session.pc s) eqn:Hpc; simplify_eq.
  destruct ret as [err|].
  - right. split; [done|]. by eapply SessionMore.returned_error_is_setup.
  - split; [done|]. by eapply SessionMore.returned_nil_was_listening.
Qed.

Definition parseOne (s : string) : list string := [s].

Lemma runExposeWithFlags_result_witness :
  Session.EvCancel ∈ SessionFacts.busySchedule.
Proof.
  assert (Hrun : runExposeWithFlags parseOne Flags.defaults SessionFacts.sdkOK
                   SessionFacts.busySchedule = Some (Returns None))
    by (vm_compute; reflexivity).
  exact (proj2 (proj1 (runExposeWithFlags_result parseOne Flags.defaults
                         SessionFacts.sdkOK SessionFacts.busySchedule None Hrun))).
Defined.
End ExposeWithFlagsFacts.

(** ** More on the connection proxy *)

Module ProxyMore.
Import Proxy ProxyFacts.

(** [errCh] never holds more than its capacity of two values: each copy
    goroutine sends exactly one value, when it finishes, so no send ever
    blocks. *)
Theorem errCh_within_capacity (addr : string) (tr : list event) (s : state) :
  proxyConnection addr tr = Some s →
  (length (errCh s) ≤ 2)%nat
  ∧ length (sent s) = (finished (toLocal s) + finished (toRelay s))%nat
  ∧ (length (errCh s) ≤ length (sent s))%nat.
Proof.
  intros Hrun. apply proxyConnection_inv in Hrun. unfold inv in Hrun.
  destruct (localConn s) as [lc|].
  - destruct Hrun as ((took & _ & Hsent) & Hlen & _).
    assert (length (errCh s) ≤ length (sent s))%nat.
    { rewrite Hsent, length_app. lia. }
    split; [|done]. destruct (toLocal s), (toRelay s); simpl in Hlen; lia.
  - destruct Hrun as (Hs & He & Hl & Hr & _). rewrite Hs, He, Hl, Hr. simpl. lia.
Qed.

Lemma errCh_within_capacity_witness :
  ∃ s, proxyConnection "localhost:4018"
         [EvDialOk; EvCopyToLocal None; EvCopyToRelay None] = Some s
       ∧ (length (errCh s) ≤ 2)%nat.
Proof.
  set (s := mkState false Closer.fresh (Some Closer.fresh) false [None; None]
              [None; None] TFinished TFinished WSelect MRecvFirst).
  assert (Hrun : proxyConnection "localhost:4018"
            [EvDialOk; EvCopyToLocal None; EvCopyToRelay None] = Some s)
    by (vm_compute; reflexivity).
  exists s. split; [exact Hrun|].
  exact (proj1 (errCh_within_capacity "localhost:4018" _ s Hrun)).
Defined.

(** Without a cancellation the proxy closes the local connection only in
    its deferred call, after both copy goroutines have reported: while the
    caller waits for the first or the second result the local connection is
    open, even when the relay side has already ended and [relayConn] is
    closed. *)
Theorem local_open_until_both_copies_end
    (addr : string) (tr : list event) (s : state) (lc : Closer.t) :
  proxyConnection addr tr = Some s →
  ctxDone s = false →
  localConn s = Some lc →
  (mainLocalCalls (main s) = 0 → lc = Closer.fresh)
  ∧ (∀ r, main s = MRecvSecond r →
       lc = Closer.fresh ∧ Closer.closed (relayConn s) = true
       ∧ (toLocal s = TRunning ∨ toRelay s = TRunning → step addr EvRecvSecond s = None)).
Proof.
  intros Hrun Hctx Hlc. apply proxyConnection_inv in Hrun. unfold inv in Hrun.
  rewrite Hlc in Hrun.
  destruct Hrun as ((took & Hrecv & Hsent) & Hlen & Htl & Htr & Hw & Hwctx & [Hr1 Hr2] & [Hl1 Hl2]).
  assert (Hwl : watcherLocalCalls (watcher s) = 0).
  { destruct (watcher s); try done. simpl in Hwctx. rewrite Hwctx in Hctx by lia. done. }
  assert (Hopen : mainLocalCalls (main s) = 0 → lc = Closer.fresh).
  { intros Hm. rewrite Hwl, Hm in Hl1, Hl2. destruct lc as [c n]. simpl in *. by subst. }
  split; [done|]. intros r Hm. rewrite Hm in *. simpl in *.
  split; [by apply Hopen|]. split.
  - rewrite Hr2. apply bool_decide_eq_true_2. lia.
  - intros Hrunning. subst took. rewrite Hm.
    destruct (errCh s) as [|x ch]; [done|]. exfalso.
    rewrite Hsent in Hlen. simpl in Hlen.
    destruct Hrunning as [E|E]; rewrite E in Hlen;
      destruct (toLocal s), (toRelay s); simpl in Hlen; try done; lia.
Qed.

Lemma local_open_until_both_copies_end_witness :
  ∃ s, proxyConnection "localhost:4018"
         [EvDialOk; EvCopyToLocal None; EvRecvFirst; EvCloseStop; EvCloseRelay] = Some s
       ∧ localConn s = Some Closer.fresh
       ∧ step "localhost:4018" EvRecvSecond s = None.
Proof.
  set (s := mkState false (Closer.mk true 1) (Some Closer.fresh) true [] [None]
              TFinished TRunning WSelect (MRecvSecond None)).
  assert (Hrun : proxyConnection "localhost:4018"
            [EvDialOk; EvCopyToLocal None; EvRecvFirst; EvCloseStop; EvCloseRelay] = Some s)
    by (vm_compute; reflexivity).
  exists s. split; [exact Hrun|]. split; [reflexivity|].
  destruct (local_open_until_both_copies_end "localhost:4018" _ s Closer.fresh
              Hrun eq_refl eq_refl) as [_ Hwait].
  destruct (Hwait None eq_refl) as (_ & _ & Hblocked).
  apply Hblocked. by right.
Defined.

(** [stopCh] is closed from line 196 on. *)
Definition stopInv (s : state) : Prop :=
  match main s with
  | MCloseRelay _ | MRecvSecond _ | MDeferLocal _ => stopCh s = true
  | MDeferRelay _ | MReturned _ => is_Some (localConn s) → stopCh s = true
  | _ => True
  end
  ∧ (is_Some (localConn s) → watcher s ≠ WNotStarted)
  ∧ (main s = MDial → localConn s = None).

Lemma step_stopInv addr ev s s' : stopInv s → step addr ev s = Some s' → stopInv s'.
Proof.
  unfold stopInv. intros (Hstop & Hw & Hd) Hstep.
  destruct s as [ctx rc lc st ch snt tl tr w m]. simpl in *.
  destruct ev; simpl in Hstep; repeat case_match; simplify_eq; simpl in *;
    repeat split; try done; try (intros [? ?]; done); try (by intros; apply Hw);
    try (intros Hs; rewrite Hd in Hs by done; by destruct Hs).
  all: try (intros Hs; apply Hw; destruct lc; [by eexists|by destruct Hs]).
  all: try (intros Hs; apply Hstop; destruct lc; [by eexists|by destruct Hs]).
  all: intros _; by rewrite Hd.
Qed.

Lemma exec_stopInv addr tr s s' : stopInv s → exec addr tr s = Some s' → stopInv s'.
Proof.
  revert s. induction tr as [|ev tr IH]; intros s Hinv; simpl.
  { by intros [= <-]. }
  destruct (step addr ev s) as [s1|] eqn:Hstep; [|done].
  apply IH. by eapply step_stopInv.
Qed.

(** No goroutine is left behind: when the proxy call has returned after a
    successful dial, both copy goroutines have finished and [stopCh] is
    closed, so the watcher has finished or is not blocked (its [select] can
    take [stopCh], or it is between its two [Close] calls). *)
Theorem proxy_leaves_no_goroutine
    (addr : string) (tr : list event) (s : state) (r : option error) :
  proxyConnection addr tr = Some s →
  returned s = Some r →
  is_Some (localConn s) →
  toLocal s = TFinished ∧ toRelay s = TFinished ∧ stopCh s = true
  ∧ match watcher s with
    | WDoneCtx | WDoneStop => True
    | WSelect => step addr EvWatchStop s = Some (setWatcher WDoneStop s)
    | WCloseLocal => is_Some (step addr EvWatchCloseLocal s)
    | WNotStarted => False
    end.
Proof.
  intros Hrun Hret Hlc.
  assert (Hstop : stopInv s).
  { eapply exec_stopInv; [|exact Hrun]. split; [done|]. split; [by intros [? ?]|done]. }
  apply proxyConnection_inv in Hrun. unfold inv in Hrun.
  destruct Hlc as [lc Hlc]. rewrite Hlc in Hrun. unfold returned in Hret.
  destruct Hstop as (Hst & Hw & _). unfold invDialled in Hrun.
  destruct (main s) as [| | | | | | |r'] eqn:Hmain; simplify_eq. simpl in *.
  destruct Hrun as ((took & (x & ->) & Hsent) & Hlen & Htl & Htr & _).
  rewrite Hsent in Hlen. simpl in Hlen.
  assert (toLocal s = TFinished ∧ toRelay s = TFinished) as [-> ->].
  { destruct (toLocal s), (toRelay s); simpl in Hlen; try done; lia. }
  assert (Hs : stopCh s = true) by (apply Hst; by eexists).
  split; [done|]. split; [done|]. split; [done|].
  assert (Hwn : watcher s ≠ WNotStarted) by (apply Hw; by eexists).
  unfold step. destruct (watcher s) eqn:Hwatch; try done.
  by rewrite Hs.
Qed.

Lemma proxy_leaves_no_goroutine_witness :
  ∃ s, proxyConnection "localhost:4018" quietSchedule = Some s ∧ stopCh s = true.
Proof.
  set (s := mkState false (Closer.mk true 2) (Some (Closer.mk true 1)) true []
              [None; Some (errorString "use of closed network connection")]
              TFinished TFinished WDoneStop (MReturned None)).
  assert (Hrun : proxyConnection "localhost:4018" quietSchedule = Some s)
    by (vm_compute; reflexivity).
  exists s. split; [exact Hrun|].
  assert (Hlc : is_Some (localConn s)) by (by eexists).
  exact (proj1 (proj2 (proj2 (proxy_leaves_no_goroutine "localhost:4018" quietSchedule
                                s None Hrun eq_refl Hlc)))).
Defined.
End ProxyMore.

(** ** More on the tunnel supervisor *)

Module SupervisorMore.
Import Supervisor SupervisorFacts.

Definition reported (p : sessionPC) : nat :=
  match p with
  | SRunning => 0
  | _ => 1
  end.

(** The sessions that have returned. *)
Fixpoint returnedCount (l : list sessionPC) : nat :=
  match l with
  | [] => 0
  | p :: l' => reported p + returnedCount l'
  end.

Lemma returnedCount_le l : (returnedCount l ≤ length l)%nat.
Proof. induction l as [|p l IH]; simpl; [lia|]. destruct p; simpl; lia. Qed.

Lemma returnedCount_insert l i p q :
  l !! i = Some p →
  (returnedCount (<[i := q]> l) + reported p = returnedCount l + reported q)%nat.
Proof.
  revert i. induction l as [|x l IH]; intros [|i] Hi; simpl in *; simplify_eq; [lia|].
  specialize (IH _ Hi). lia.
Qed.

Definition capInv (n : nat) (s : state) : Prop :=
  length (sessions s) = n
  ∧ (length (sent s) ≤ returnedCount (sessions s))%nat
  ∧ (length (errCh s) ≤ length (sent s))%nat.

Lemma step_capInv n ev s s' : capInv n s → step ev s = Some s' → capInv n s'.
Proof.
  unfold capInv. intros (Hn & Hsent & Hch) Hstep.
  destruct s as [ctx ss ch snt dn m]. simpl in *.
  destruct ev; simpl in Hstep; repeat case_match; simplify_eq; simpl in *;
    rewrite ?length_insert, ?length_app; simpl;
    repeat match goal with
    | Hl : _ !! _ = Some ?p |- context [returnedCount (<[_ := ?q]> _)] =>
      pose proof (returnedCount_insert _ _ _ q Hl); clear Hl
    end; simpl in *; repeat split; try done; lia.
Qed.

Lemma exec_capInv n tr s s' : capInv n s → exec tr s = Some s' → capInv n s'.
Proof.
  revert s. induction tr as [|ev tr IH]; intros s Hinv; simpl.
  { by intros [= <-]. }
  destruct (step ev s) as [s1|] eqn:Hstep; [|done].
  apply IH. by eapply step_capInv.
Qed.

(** [errCh], made with capacity [len(cfg.Services)], is large enough: every
    session sends at most one error, so the channel never holds more values
    than there are services and no session blocks on its send. *)
Theorem supervisor_errCh_within_capacity (n : nat) (tr : list event) (s : state) :
  runExposeWithConfig n tr = Some s →
  length (sessions s) = n
  ∧ (length (errCh s) ≤ length (sent s))%nat
  ∧ (length (sent s) ≤ returnedCount (sessions s))%nat
  ∧ (length (errCh s) ≤ n)%nat.
Proof.
  intros Hrun.
  assert (Hinv : capInv n s).
  { eapply exec_capInv; [|exact Hrun]. unfold capInv, init. simpl.
    rewrite length_replicate. split; [done|]. split; lia. }
  destruct Hinv as (Hn & Hsent & Hch).
  pose proof (returnedCount_le (sessions s)). repeat split; try done; lia.
Qed.

Lemma supervisor_errCh_within_capacity_witness :
  ∃ s, runExposeWithConfig 2
         [EvSessionReturn 0 (Some errRegisterWeb); EvSessionReturn 1 (Some errRegisterWeb)]
       = Some s
       ∧ (length (errCh s) ≤ 2)%nat.
Proof.
  set (s := mkState false [SReturned; SReturned] [errRegisterWeb; errRegisterWeb]
              [errRegisterWeb; errRegisterWeb] false MSelect).
  assert (Hrun : runExposeWithConfig 2
            [EvSessionReturn 0 (Some errRegisterWeb);
             EvSessionReturn 1 (Some errRegisterWeb)] = Some s)
    by (vm_compute; reflexivity).
  exists s. split; [exact Hrun|].
  exact (proj2 (proj2 (proj2 (supervisor_errCh_within_capacity 2 _ s Hrun)))).
Defined.

(** The events that are neither the signal nor a session returning an
    error. *)
Definition quiet (ev : event) : bool :=
  match ev with
  | EvSignal | EvSessionReturn _ (Some _) => false
  | _ => true
  end.

Lemma step_quiet_blocked n ev :
  (0 < n)%nat → quiet ev = true → step ev (init n) = None.
Proof.
  intros Hn Hq. destruct ev as [|i [err|]|i| | | | |]; try done; simpl.
  - destruct (replicate n SRunning !! i) as [p|] eqn:Hi; [|done].
    apply lookup_replicate in Hi as [-> _]. done.
  - destruct (replicate n SRunning !! i) as [p|] eqn:Hi; [|done].
    apply lookup_replicate in Hi as [-> _]. done.
  - unfold allDone. simpl. destruct n; [lia|]. done.
Qed.

(** With at least one service, and as long as no signal arrives and no
    session fails, nothing moves: no session returns, [doneCh] stays open
    and the caller stays blocked in its [select].  A schedule without
    signal and without failure is the empty one. *)
Theorem supervisor_blocks_until_signal_or_failure
    (n : nat) (tr : list event) (s : state) :
  (0 < n)%nat →
  Forall (λ ev, quiet ev = true) tr →
  runExposeWithConfig n tr = Some s →
  tr = [] ∧ s = init n ∧ main s = MSelect.
Proof.
  intros Hn Hq Hrun. destruct tr as [|ev tr].
  - injection Hrun as <-. done.
  - apply Forall_cons in Hq as [Hev _]. unfold runExposeWithConfig in Hrun. simpl in Hrun.
    by rewrite (step_quiet_blocked n ev Hn Hev) in Hrun.
Qed.

Lemma supervisor_blocks_until_signal_or_failure_witness :
  main (init 2) = MSelect.
Proof.
  assert (Hn : (0 < 2)%nat) by lia.
  assert (Hq : Forall (λ ev, quiet ev = true) []) by constructor.
  assert (Hrun : runExposeWithConfig 2 [] = Some (init 2)) by reflexivity.
  exact (proj2 (proj2 (supervisor_blocks_until_signal_or_failure 2 [] (init 2)
                         Hn Hq Hrun))).
Defined.
End SupervisorMore.
